(** * The interactive detective story: generation client and game state machine

    A shallow embedding of [services/geminiService.ts], [types.ts] and the
    state logic of [App.tsx].

    - [JS] holds the fragment of the JavaScript runtime the code relies on:
      dynamically typed values as [JSON.parse] produces them, truthiness,
      [typeof], property reads, exceptions, [Array.prototype.join] and
      [Array.prototype.map] with its index.
    - [Service] is [geminiService.ts]: the response schema, the prompt
      formatter, [generateStoryScene] and [generateHint].  The remote model,
      [JSON.parse] and [String.prototype.trim] are section variables.
    - [App] is the React component's state and its four handlers.  An
      [async] function is split at its [await]: a synchronous prefix that
      returns the call it issues, and a continuation that receives how the
      call settled.  [App.step] runs one event of the resulting transition
      system, with the calls still in flight kept explicitly. *)

From Stdlib Require Import String Ascii List Bool Arith Lia DecimalString.
From Corelib Require Import PrimFloat.
Import ListNotations.
Open Scope string_scope.
Set Warnings "-register-all".

(** ** JavaScript runtime fragment *)

Module JS.

(** A value as [JSON.parse] builds it, plus [undefined], which a property read
    yields for a missing key.  Numbers are IEEE doubles. *)
Inductive value : Type :=
| VUndefined
| VNull
| VBool (b : bool)
| VNumber (x : float)
| VString (s : string)
| VArray (items : list value)
| VObject (props : list (string * value)).

(** What a [throw] carries. *)
Inductive error : Type :=
| TypeError
| SyntaxError
| Error (message : string)
| ApiError (reason : string).

(** The completion of an expression or of a promise: a value, or an exception
    (a rejection). *)
Inductive result (A : Type) : Type :=
| Ok (a : A)
| Throw (e : error).

Arguments Ok {A} a.
Arguments Throw {A} e.

Definition bind {A B : Type} (r : result A) (k : A -> result B) : result B :=
  match r with
  | Ok a => k a
  | Throw e => Throw e
  end.

(** [try { body } catch (error) { handler }]. *)
Definition try_catch {A : Type} (body : result A) (handler : error -> result A)
  : result A :=
  match body with
  | Ok a => Ok a
  | Throw e => handler e
  end.

Definition threw {A : Type} (r : result A) : bool :=
  match r with
  | Ok _ => false
  | Throw _ => true
  end.

(** ToBoolean. *)
Definition truthy (v : value) : bool :=
  match v with
  | VUndefined | VNull => false
  | VBool b => b
  | VNumber x => negb (PrimFloat.eqb x 0%float || PrimFloat.is_nan x)
  | VString s => negb (s =? EmptyString)
  | VArray _ | VObject _ => true
  end.

Definition typeof (v : value) : string :=
  match v with
  | VUndefined => "undefined"
  | VNull => "object"
  | VBool _ => "boolean"
  | VNumber _ => "number"
  | VString _ => "string"
  | VArray _ | VObject _ => "object"
  end.

(** The own property [k] of an object written as the list of its bindings in
    source order: a later binding of a key replaces an earlier one. *)
Fixpoint lookup (k : string) (props : list (string * value)) : option value :=
  match props with
  | [] => None
  | (k', v) :: rest =>
      match lookup k rest with
      | Some v' => Some v'
      | None => if k =? k' then Some v else None
      end
  end.

(** [v.k] for a key [k] that no prototype defines (the service reads only
    [scene], [choices], [isEnding] and [sceneType]): a [TypeError] on [null]
    and [undefined], the own property of an object, [undefined] elsewhere. *)
Definition getField (v : value) (k : string) : result value :=
  match v with
  | VUndefined | VNull => Throw TypeError
  | VObject props =>
      match lookup k props with
      | Some x => Ok x
      | None => Ok VUndefined
      end
  | VBool _ | VNumber _ | VString _ | VArray _ => Ok VUndefined
  end.

(** [a && b] with [b] evaluated only when [a] is truthy. *)
Definition and_then (a : value) (b : result value) : result value :=
  if truthy a then b else Ok a.

(** [xs.join(sep)] on an array of strings. *)
Fixpoint join (sep : string) (xs : list string) : string :=
  match xs with
  | [] => EmptyString
  | [x] => x
  | x :: rest => x ++ sep ++ join sep rest
  end.

(** [xs.map((x, index) => f(x, index))], with the index of the head given. *)
Fixpoint mapi_from {A B : Type} (i : nat) (f : A -> nat -> B) (xs : list A)
  : list B :=
  match xs with
  | [] => []
  | x :: rest => f x i :: mapi_from (S i) f rest
  end.

Definition mapi {A B : Type} (f : A -> nat -> B) (xs : list A) : list B :=
  mapi_from 0 f xs.

(** [`${n}`] for a non-negative integer. *)
Definition string_of_nat (n : nat) : string :=
  NilEmpty.string_of_uint (Nat.to_uint n).

Definition nl : string := String (ascii_of_nat 10) EmptyString.
Definition dquote : string := String (ascii_of_nat 34) EmptyString.

(** [needle] occurs in [hay]. *)
Definition occurs_in (needle hay : string) : Prop :=
  exists before after : string, hay = before ++ needle ++ after.

(** [first] occurs in [hay] and [second] occurs after it, without overlap. *)
Definition occurs_before (first second hay : string) : Prop :=
  exists a b c : string, hay = a ++ first ++ b ++ second ++ c.

End JS.

Notation "'let!' x ':=' r 'in' k" := (JS.bind r (fun x => k))
  (at level 10, x name, r at level 100, k at level 200).

Import JS.

(** ** [types.ts] *)

Inductive SceneType : Type := neutral | positive | negative | suspense.

Record StoryScene : Type := mkStoryScene {
  scene : string;
  choices : list string;
  isEnding : bool;
  sceneType : option SceneType
}.

Inductive GameState : Type := Start | Playing | End.

(** An element of the story history, [{ scene: string, choice: string }]. *)
Module Turn.
Record t : Type := make { scene : string; choice : string }.
End Turn.

Definition History : Type := list Turn.t.

(** *** The declared shape of a value

    [parsedJson as StoryScene] is an unchecked assertion.  [asStoryScene v]
    is the record a value denotes when it does have the declared shape, and
    [None] otherwise. *)

Definition asString (v : value) : option string :=
  match v with
  | VString s => Some s
  | _ => None
  end.

Fixpoint asStrings (vs : list value) : option (list string) :=
  match vs with
  | [] => Some []
  | v :: rest =>
      match asString v, asStrings rest with
      | Some s, Some ss => Some (s :: ss)
      | _, _ => None
      end
  end.

Definition asSceneType (v : value) : option (option SceneType) :=
  match v with
  | VUndefined => Some None
  | VString s =>
      if s =? "neutral" then Some (Some neutral)
      else if s =? "positive" then Some (Some positive)
      else if s =? "negative" then Some (Some negative)
      else if s =? "suspense" then Some (Some suspense)
      else None
  | _ => None
  end.

Definition fieldOf (v : value) (k : string) : value :=
  match v with
  | VObject props =>
      match lookup k props with
      | Some x => x
      | None => VUndefined
      end
  | _ => VUndefined
  end.

Definition asStoryScene (v : value) : option StoryScene :=
  match v with
  | VObject _ =>
      match fieldOf v "scene", fieldOf v "choices", fieldOf v "isEnding",
            asSceneType (fieldOf v "sceneType") with
      | VString s, VArray cs, VBool e, Some t =>
          match asStrings cs with
          | Some cs' => Some (mkStoryScene s cs' e t)
          | None => None
          end
      | _, _, _, _ => None
      end
  | _ => None
  end.

(** ** [services/geminiService.ts]

    The module throws when it is loaded without an [API_KEY]; the functions
    below exist only when it was loaded, with the client [ai] built. *)

Module Service.

(** *** The request and response of [ai.models.generateContent] *)

Inductive SchemaType : Type := OBJECT | ARRAY | STRING | BOOLEAN.

(** A response schema: of the SDK's fields, the ones [storySceneSchema] sets. *)
Inductive Schema : Type :=
| mkSchema (type : SchemaType)
           (description : option string)
           (enum : option (list string))
           (items : option Schema)
           (properties : option (list (string * Schema)))
           (required : option (list string)).

Record GenerateContentConfig : Type := {
  responseMimeType : string;
  responseSchema : Schema
}.

Record GenerateContentParameters : Type := {
  model : string;
  contents : string;
  config : option GenerateContentConfig
}.

(** [response.text] is [undefined] when the reply carries no text part. *)
Record GenerateContentResponse : Type := {
  text : option string
}.

Definition storySceneSchema : Schema :=
  mkSchema OBJECT None None None
    (Some
      [ ("scene",
         mkSchema STRING
           (Some "الجزء التالي من القصة البوليسية التفاعلية باللغة العربية. يجب أن يصف الموقف الحالي.")
           None None None None);
        ("choices",
         mkSchema ARRAY
           (Some "مصفوفة من 2 إلى 4 خيارات نصية للاعب. كل خيار يجب أن يؤدي إلى مسار مختلف في القصة.")
           None (Some (mkSchema STRING None None None None None)) None None);
        ("isEnding",
         mkSchema BOOLEAN
           (Some "يكون 'true' إذا كان هذا المشهد هو نهاية القصة، وإلا 'false'.")
           None None None None);
        ("sceneType",
         mkSchema STRING
           (Some "تصنيف نغمة المشهد الحالي. يمكن أن يكون 'neutral' (محايد)، 'positive' (إيجابي، عند تحقيق تقدم)، 'negative' (سلبي، عند الوقوع في فخ)، أو 'suspense' (غامض/متوتر). هذا يساعد في اختيار المؤثر الصوتي المناسب.")
           (Some ["neutral"; "positive"; "negative"; "suspense"])
           None None None) ])
    (Some ["scene"; "choices"; "isEnding"]).

(** *** The prompt formatter *)

Definition noHistoryYet : string := "لا يوجد تاريخ حتى الآن.".

Definition sceneLabel : string := "المشهد ".
Definition choiceLabel : string := "القرار المتخذ: ".

(** The template literal of one turn: the label with [index + 1], the scene, a
    line break, the label of the decision and the choice. *)
Definition formatTurn (turn : Turn.t) (index : nat) : string :=
  sceneLabel ++ string_of_nat (index + 1) ++ ": " ++ Turn.scene turn ++ nl
  ++ choiceLabel ++ Turn.choice turn.

Definition formatStoryHistory (history : History) : string :=
  if (List.length history =? 0)%nat then noHistoryYet
  else join (nl ++ nl) (mapi formatTurn history).

Definition openingPrompt : string :=
  "أنت كاتب قصص بوليسية تفاعلية. ابدأ قصة قصيرة وغامضة باللغة العربية على طراز المحقق كونان. يجب أن تضع اللاعب في موقف يتطلب منه اتخاذ قرار. قدم وصفاً للمشهد، ثم قدم 3 خيارات مختلفة يمكن للاعب اتخاذها. يجب أن تكون القصة مشوقة. لا تنهِ القصة في هذه المرحلة.".

Definition indent : string := "        ".

Definition continuationHead : string :=
  "أنت كاتب قصص بوليسية تفاعلية. هذه هي أحداث القصة حتى الآن:" ++ nl ++ indent.

Definition continuationTail : string :=
  nl ++ indent ++ nl ++ indent
  ++ "بناءً على القرار الأخير، أكمل القصة بجزء جديد ومثير باللغة العربية. صف ما يحدث بعد ذلك، ثم قدم 2-4 خيارات جديدة للاعب. قد يؤدي أحد الخيارات إلى نهاية القصة. إذا كان هذا هو المشهد الأخير، فضع علامة 'isEnding' على 'true'. قم بتصنيف المشهد الجديد كـ 'neutral', 'positive', 'negative', أو 'suspense'.".

Definition continuationPrompt (history : History) : string :=
  continuationHead ++ formatStoryHistory history ++ continuationTail.

(** The [prompt] constant of [generateStoryScene]. *)
Definition scenePrompt (history : History) : string :=
  let isFirstScene := (List.length history =? 0)%nat in
  if isFirstScene then openingPrompt else continuationPrompt history.

(** The [prompt] constant of [generateHint]. *)
Definition hintPrompt (history : History) (currentScene : StoryScene) : string :=
  "أنت مرشد حكيم وغامض في لعبة تحقيق تفاعلية. اللاعب يواجه الآن خيارًا صعبًا."
  ++ nl ++ indent ++ nl ++ indent
  ++ "ملخص القصة حتى الآن:" ++ nl ++ indent
  ++ formatStoryHistory history ++ nl ++ nl ++ indent
  ++ "المشهد الحالي الذي يراه اللاعب:" ++ nl ++ indent
  ++ dquote ++ scene currentScene ++ dquote ++ nl ++ nl ++ indent
  ++ "الخيارات المتاحة للاعب:" ++ nl ++ indent
  ++ "- " ++ join (nl ++ "- ") (choices currentScene) ++ nl ++ nl ++ indent
  ++ "مهمتك هي تقديم تلميح واحد قصير وغامض باللغة العربية لمساعدة اللاعب. **لا تكشف عن الإجابة الصحيحة أو النتيجة المباشرة لأي خيار.** يجب أن يكون التلميح دقيقًا ومثيرًا للتفكير."
  ++ nl ++ indent
  ++ "أمثلة على التلميحات الجيدة: " ++ dquote
  ++ "أحيانًا، الغرف الهادئة تحمل الأسرار الأعلى صوتًا." ++ dquote ++ " أو "
  ++ dquote ++ "النهج المباشر ليس دائمًا أسرع طريق للحقيقة." ++ dquote.

(** *** The fallback results *)

Definition fallbackNarrative : string :=
  "حدث خطأ غير متوقع في سير الأحداث. يبدو أن هناك قوة خارجية تتلاعب بملف القضية. هل تريد بدء تحقيق جديد؟".

Definition startOver : string := "ابدأ من جديد".

(** The object literal returned by the [catch] of [generateStoryScene]. *)
Definition fallbackScene : value :=
  VObject
    [ ("scene", VString fallbackNarrative);
      ("choices", VArray [VString startOver]);
      ("isEnding", VBool true);
      ("sceneType", VString "negative") ].

(** The string returned by the [catch] of [generateHint]. *)
Definition noHintAvailable : string :=
  "لا يمكن استخلاص أي تلميحات في هذا الوقت. اعتمد على حدسك.".

Definition invalidStructure : error :=
  Error "Invalid JSON structure received from API".

(** The [if] that follows [JSON.parse]: the object itself when
    [parsedJson.scene && parsedJson.choices &&
     typeof parsedJson.isEnding !== 'undefined'] is truthy, a [throw]
    otherwise.  Reading a property of [null] throws before the test is
    decided. *)
Definition checkStructure (parsedJson : value) : result value :=
  let! a := getField parsedJson "scene" in
  let! ab := and_then a (getField parsedJson "choices") in
  let! abc :=
    and_then ab
      (let! c := getField parsedJson "isEnding" in
       Ok (VBool (negb (typeof c =? "undefined")))) in
  if truthy abc then Ok parsedJson else Throw invalidStructure.

(** [text.trim()] on [response.text]: a [TypeError] when it is [undefined]. *)
Definition trimText (trim : string -> string) (t : option string)
  : result string :=
  match t with
  | Some s => Ok (trim s)
  | None => Throw TypeError
  end.

Section Runtime.

(** The remote model behind [ai.models.generateContent]: a rejected promise is
    a [Throw]. *)
Variable generateContent :
  GenerateContentParameters -> result GenerateContentResponse.

(** [JSON.parse]: a [SyntaxError] is a [Throw]. *)
Variable JSON_parse : string -> result value.

(** [String.prototype.trim]. *)
Variable trim : string -> string.

Definition sceneRequest (history : History) : GenerateContentParameters :=
  {| model := "gemini-2.5-flash";
     contents := scenePrompt history;
     config := Some {| responseMimeType := "application/json";
                       responseSchema := storySceneSchema |} |}.

(** The [try] block of [generateStoryScene]. *)
Definition generateStoryScene_try (history : History) : result value :=
  let! response := generateContent (sceneRequest history) in
  let! jsonText := trimText trim (text response) in
  let! parsedJson := JSON_parse jsonText in
  checkStructure parsedJson.

(** [generateStoryScene]: [Ok] is the value the promise resolves with, [Throw]
    a rejection of the promise. *)
Definition generateStoryScene (history : History) : result value :=
  try_catch (generateStoryScene_try history) (fun _ => Ok fallbackScene).

Definition hintRequest (history : History) (currentScene : StoryScene)
  : GenerateContentParameters :=
  {| model := "gemini-2.5-flash";
     contents := hintPrompt history currentScene;
     config := None |}.

(** The [try] block of [generateHint]. *)
Definition generateHint_try (history : History) (currentScene : StoryScene)
  : result string :=
  let! response := generateContent (hintRequest history currentScene) in
  trimText trim (text response).

Definition generateHint (history : History) (currentScene : StoryScene)
  : result string :=
  try_catch (generateHint_try history currentScene)
            (fun _ => Ok noHintAvailable).

(** How the [try] block of [generateStoryScene] can fail: the call rejects
    (transport), the reply has no text or text that does not parse (parsing),
    or the parsed value does not pass the structure test (validation). *)
Inductive SceneFailure (history : History) : Prop :=
| SceneCallRejected (e : error) :
    generateContent (sceneRequest history) = Throw e ->
    SceneFailure history
| SceneTextMissing (response : GenerateContentResponse) :
    generateContent (sceneRequest history) = Ok response ->
    text response = None ->
    SceneFailure history
| SceneParseFailed (response : GenerateContentResponse) (t : string) (e : error) :
    generateContent (sceneRequest history) = Ok response ->
    text response = Some t ->
    JSON_parse (trim t) = Throw e ->
    SceneFailure history
| SceneStructureRejected (response : GenerateContentResponse) (t : string)
                         (v : value) (e : error) :
    generateContent (sceneRequest history) = Ok response ->
    text response = Some t ->
    JSON_parse (trim t) = Ok v ->
    checkStructure v = Throw e ->
    SceneFailure history.

(** How the [try] block of [generateHint] can fail. *)
Inductive HintFailure (history : History) (currentScene : StoryScene) : Prop :=
| HintCallRejected (e : error) :
    generateContent (hintRequest history currentScene) = Throw e ->
    HintFailure history currentScene
| HintTextMissing (response : GenerateContentResponse) :
    generateContent (hintRequest history currentScene) = Ok response ->
    text response = None ->
    HintFailure history currentScene.

End Runtime.

(** The structure test read off as a boolean: [scene] truthy, [choices]
    truthy, [isEnding] not [undefined]. *)
Definition presentFields (v : value) : bool :=
  truthy (fieldOf v "scene") && truthy (fieldOf v "choices")
  && negb (typeof (fieldOf v "isEnding") =? "undefined").

(** The shape the specification asks the validator to confirm: the narrative
    is a text, the choices are an array, the ending flag is a boolean. *)
Definition spec_wellShaped (v : value) : bool :=
  match fieldOf v "scene", fieldOf v "choices", fieldOf v "isEnding" with
  | VString _, VArray _, VBool _ => true
  | _, _, _ => false
  end.

(** The record the fallback object denotes. *)
Definition fallbackStoryScene : StoryScene :=
  mkStoryScene fallbackNarrative [startOver] true (Some negative).

End Service.

(** ** [App.tsx]: the component state and its handlers *)

Module App.

Inductive Sound : Type :=
| bgMusic
| choiceSound
| transitionSound
| hintSound
| positiveOutcomeSound
| negativeOutcomeSound.

(** What a handler does besides setting state: it plays or stops a sound, or
    calls the service (the call settles later, see [Event]). *)
Inductive Effect : Type :=
| Play (s : Sound)
| PauseAndRewind (s : Sound)
| CallGenerateStoryScene (history : History)
| CallGenerateHint (history : History) (currentScene : StoryScene).

(** The [useState] cells of the game.  The settings panel ([showSettings],
    [musicVolume], [sfxVolume]) is read and written by no handler below and is
    left out. *)
Record State : Type := mkState {
  gameState : GameState;
  currentScene : option StoryScene;
  storyHistory : History;
  isLoading : bool;
  hint : option string;
  isHintLoading : bool;
  isHintUsed : bool
}.

(** The initial values given to [useState]. *)
Definition initial : State := mkState Start None [] false None false false.

Definition setGameState (g : GameState) (s : State) : State :=
  mkState g (currentScene s) (storyHistory s) (isLoading s) (hint s)
          (isHintLoading s) (isHintUsed s).

Definition setCurrentScene (c : option StoryScene) (s : State) : State :=
  mkState (gameState s) c (storyHistory s) (isLoading s) (hint s)
          (isHintLoading s) (isHintUsed s).

Definition setStoryHistory (h : History) (s : State) : State :=
  mkState (gameState s) (currentScene s) h (isLoading s) (hint s)
          (isHintLoading s) (isHintUsed s).

Definition setIsLoading (b : bool) (s : State) : State :=
  mkState (gameState s) (currentScene s) (storyHistory s) b (hint s)
          (isHintLoading s) (isHintUsed s).

Definition setHint (h : option string) (s : State) : State :=
  mkState (gameState s) (currentScene s) (storyHistory s) (isLoading s) h
          (isHintLoading s) (isHintUsed s).

Definition setIsHintLoading (b : bool) (s : State) : State :=
  mkState (gameState s) (currentScene s) (storyHistory s) (isLoading s)
          (hint s) b (isHintUsed s).

Definition setIsHintUsed (b : bool) (s : State) : State :=
  mkState (gameState s) (currentScene s) (storyHistory s) (isLoading s)
          (hint s) (isHintLoading s) b.

(** *** [fetchScene] *)

(** Up to the [await]: four setters, then the call. *)
Definition fetchScene_begin (history : History) (s : State)
  : State * list Effect :=
  let s := setIsLoading true s in
  let s := setCurrentScene None s in
  let s := setHint None s in
  let s := setIsHintUsed false s in
  (s, [CallGenerateStoryScene history]).

(** The [switch] on [newScene.sceneType]. *)
Definition outcomeSound (t : option SceneType) : Sound :=
  match t with
  | Some positive => positiveOutcomeSound
  | Some negative | Some suspense => negativeOutcomeSound
  | Some neutral | None => transitionSound
  end.

(** After the [await]: the rest of the [try] when the call resolved, the
    [catch] when it rejected, and the [finally] in both cases. *)
Definition fetchScene_settle (r : result StoryScene) (s : State)
  : State * list Effect :=
  match r with
  | Ok newScene =>
      let s := setCurrentScene (Some newScene) s in
      if isEnding newScene then
        (setIsLoading false (setGameState End s),
         [Play (outcomeSound (sceneType newScene)); PauseAndRewind bgMusic])
      else
        (setIsLoading false (setGameState Playing s),
         [Play (outcomeSound (sceneType newScene))])
  | Throw _ => (setIsLoading false s, [])
  end.

(** *** The handlers *)

Definition handleStartGame (s : State) : State * list Effect :=
  let s := setStoryHistory [] s in
  let (s, fx) := fetchScene_begin [] s in
  (s, Play bgMusic :: fx).

Definition handleResetGame (s : State) : State * list Effect :=
  let s := setGameState Start s in
  let s := setCurrentScene None s in
  let s := setStoryHistory [] s in
  let s := setHint None s in
  let s := setIsHintUsed false s in
  (s, [PauseAndRewind bgMusic]).

Definition handleChoice (choice : string) (s : State) : State * list Effect :=
  match currentScene s with
  | None => (s, [])
  | Some cur =>
      if isLoading s then (s, [])
      else
        let newHistory := (storyHistory s ++ [Turn.make (scene cur) choice])%list in
        let (s', fx) := fetchScene_begin newHistory
                          (setStoryHistory newHistory s) in
        (s', Play choiceSound :: fx)
  end.

(** [handleGetHint] up to its [await]. *)
Definition handleGetHint_begin (s : State) : State * list Effect :=
  match currentScene s with
  | None => (s, [])
  | Some cur =>
      if isHintUsed s || isHintLoading s then (s, [])
      else
        (setIsHintUsed true (setIsHintLoading true s),
         [Play hintSound; CallGenerateHint (storyHistory s) cur])
  end.

Definition hintFetchError : string := "حدث خطأ أثناء جلب التلميح.".

(** [handleGetHint] after its [await]. *)
Definition handleGetHint_settle (r : result string) (s : State)
  : State * list Effect :=
  match r with
  | Ok newHint => (setIsHintLoading false (setHint (Some newHint) s), [])
  | Throw _ => (setIsHintLoading false (setHint (Some hintFetchError) s), [])
  end.

(** *** The transition system

    The component together with the service calls that were issued and have
    not settled.  Every handler runs on the state of the latest render, and
    the setters a handler or a continuation calls take effect together. *)

Record System : Type := mkSystem {
  app : State;
  sceneCalls : list History;
  hintCalls : list (History * StoryScene)
}.

Inductive Event : Type :=
| StartGame
| ResetGame
| Choose (choice : string)
| GetHint
| SceneSettled (i : nat) (r : result StoryScene)
| HintSettled (i : nat) (r : result string).

Fixpoint sceneCallsOf (fx : list Effect) : list History :=
  match fx with
  | [] => []
  | CallGenerateStoryScene h :: rest => h :: sceneCallsOf rest
  | _ :: rest => sceneCallsOf rest
  end.

Fixpoint hintCallsOf (fx : list Effect) : list (History * StoryScene) :=
  match fx with
  | [] => []
  | CallGenerateHint h c :: rest => (h, c) :: hintCallsOf rest
  | _ :: rest => hintCallsOf rest
  end.

(** The system after a handler ran: its calls join the ones in flight. *)
Definition after (out : State * list Effect) (sys : System) : System :=
  mkSystem (fst out)
           (sceneCalls sys ++ sceneCallsOf (snd out))%list
           (hintCalls sys ++ hintCallsOf (snd out))%list.

Fixpoint remove_nth {A : Type} (i : nat) (xs : list A) : list A :=
  match i, xs with
  | _, [] => []
  | O, _ :: rest => rest
  | S j, x :: rest => x :: remove_nth j rest
  end.

(** The handler, or the continuation, that an event runs. *)
Definition react (e : Event) (s : State) : State * list Effect :=
  match e with
  | StartGame => handleStartGame s
  | ResetGame => handleResetGame s
  | Choose c => handleChoice c s
  | GetHint => handleGetHint_begin s
  | SceneSettled _ r => fetchScene_settle r s
  | HintSettled _ r => handleGetHint_settle r s
  end.

(** The calls left in flight when the call an event settles is taken out;
    [None] when that call is not in flight. *)
Definition settle (e : Event) (sys : System) : option System :=
  match e with
  | SceneSettled i _ =>
      match nth_error (sceneCalls sys) i with
      | Some _ =>
          Some (mkSystem (app sys) (remove_nth i (sceneCalls sys))
                         (hintCalls sys))
      | None => None
      end
  | HintSettled i _ =>
      match nth_error (hintCalls sys) i with
      | Some _ =>
          Some (mkSystem (app sys) (sceneCalls sys)
                         (remove_nth i (hintCalls sys)))
      | None => None
      end
  | StartGame | ResetGame | Choose _ | GetHint => Some sys
  end.

(** One event. *)
Definition step (e : Event) (sys : System) : option System :=
  match settle e sys with
  | Some sys0 => Some (after (react e (app sys)) sys0)
  | None => None
  end.

Fixpoint run (events : list Event) (sys : System) : option System :=
  match events with
  | [] => Some sys
  | e :: rest =>
      match step e sys with
      | Some sys' => run rest sys'
      | None => None
      end
  end.

(** The effects of a run, in order, up to the first event that cannot run. *)
Fixpoint effects (events : list Event) (sys : System) : list Effect :=
  match events with
  | [] => []
  | e :: rest =>
      match step e sys with
      | Some sys' => (snd (react e (app sys)) ++ effects rest sys')%list
      | None => []
      end
  end.

Definition boot : System := mkSystem initial [] [].

Definition reachable (sys : System) : Prop :=
  exists events : list Event, run events boot = Some sys.

(** *** What [renderGameState] puts on the screen

    [offered s e] holds when the render of [s] shows an enabled control whose
    [onClick] is the handler of [e]; a settling call needs no control. *)

Definition isStart (g : GameState) : bool :=
  match g with Start => true | _ => false end.

Definition isPlaying (g : GameState) : bool :=
  match g with Playing => true | _ => false end.

Definition isEnd (g : GameState) : bool :=
  match g with End => true | _ => false end.

Definition hasScene (s : State) : bool :=
  match currentScene s with Some _ => true | None => false end.

(** The card of the [Playing]/[End] branch, shown unless the spinner replaces
    it. *)
Definition cardShown (s : State) : bool :=
  negb (isStart (gameState s)) && negb (isLoading s && negb (hasScene s)).

Definition offered (s : State) (e : Event) : bool :=
  match e with
  | StartGame => isStart (gameState s)
  | ResetGame => cardShown s && isEnd (gameState s) && negb (isLoading s)
  | Choose c =>
      cardShown s && negb (isLoading s)
      && match currentScene s with
         | Some cur => existsb (String.eqb c) (choices cur)
         | None => false
         end
  | GetHint =>
      cardShown s && hasScene s && isPlaying (gameState s)
      && negb (isHintUsed s || isLoading s || isHintLoading s)
  | SceneSettled _ _ | HintSettled _ _ => true
  end.

(** A run in which every user event goes through a control on the screen. *)
Fixpoint play (events : list Event) (sys : System) : option System :=
  match events with
  | [] => Some sys
  | e :: rest =>
      if offered (app sys) e then
        match step e sys with
        | Some sys' => play rest sys'
        | None => None
        end
      else None
  end.

(** *** Vocabulary of the properties *)

(** No event of the run is a scene call that resolves with a scene. *)
Fixpoint noSceneResolved (events : list Event) : bool :=
  match events with
  | [] => true
  | SceneSettled _ (Ok _) :: _ => false
  | _ :: rest => noSceneResolved rest
  end.

(** No event of the run starts a new game or resets the game. *)
Fixpoint noRestart (events : list Event) : bool :=
  match events with
  | [] => true
  | StartGame :: _ | ResetGame :: _ => false
  | _ :: rest => noRestart rest
  end.

(** The run never starts a game while a scene call is in flight. *)
Fixpoint noOverlappingStart (events : list Event) (sys : System) : bool :=
  match events with
  | [] => true
  | e :: rest =>
      match e, sceneCalls sys with
      | StartGame, _ :: _ => false
      | _, _ =>
          match step e sys with
          | Some sys' => noOverlappingStart rest sys'
          | None => true
          end
      end
  end.

(** The event is neither a scene call resolving with a scene nor a hint call
    settling. *)
Definition quiet (e : Event) : bool :=
  match e with
  | SceneSettled _ (Ok _) | HintSettled _ _ => false
  | _ => true
  end.


(** The hint of the scene shown, if any, has been requested. *)
Definition hintSpent (s : State) : Prop :=
  isHintUsed s = true \/ currentScene s = None.

(** No scene is shown and no hint has been requested. *)
Definition hintFresh (s : State) : Prop :=
  isHintUsed s = false /\ currentScene s = None.

(** No scene is shown, no hint text is held and no hint has been requested. *)
Definition hintClear (s : State) : Prop :=
  hint s = None /\ isHintUsed s = false /\ currentScene s = None.

(** At most one scene call is in flight, and none while a scene is shown. *)
Definition singleFlight (sys : System) : Prop :=
  List.length (sceneCalls sys) <= 1
  /\ (sceneCalls sys <> [] -> currentScene (app sys) = None).

End App.

(** ** More of [renderGameState] and of the audio *)

Module Screen.

Import App.

(** The hint box of the [Playing] block, [{hint && !isHintLoading && (...)}]:
    the empty string is falsy. *)
Definition hintShown (s : State) : bool :=
  cardShown s && hasScene s && isPlaying (gameState s)
  && match hint s with
     | Some t => negb (t =? EmptyString)
     | None => false
     end
  && negb (isHintLoading s).

(** The event is a click. *)
Definition isClick (e : Event) : bool :=
  match e with
  | StartGame | ResetGame | Choose _ | GetHint => true
  | SceneSettled _ _ | HintSettled _ _ => false
  end.

End Screen.

Module Audio.

Import App.

(** Whether the background music plays after the effects [fx], given whether
    it played before: [play()] starts it, [pause()] stops it, the other
    sounds leave it alone. *)
Fixpoint music (fx : list Effect) (playing : bool) : bool :=
  match fx with
  | [] => playing
  | Play bgMusic :: rest => music rest true
  | PauseAndRewind bgMusic :: rest => music rest false
  | _ :: rest => music rest playing
  end.

End Audio.

Module Invariants.

Import App.

(** The scene side of a reachable state. *)
Definition sceneSide (sys : System) : Prop :=
  (gameState (app sys) = Start ->
   currentScene (app sys) = None /\ storyHistory (app sys) = [])
  /\ (isLoading (app sys) = true ->
      currentScene (app sys) = None /\ sceneCalls sys <> []).

(** The hint side of a reachable state. *)
Definition hintSide (sys : System) : Prop :=
  List.length (hintCalls sys) <= 1
  /\ (isHintLoading (app sys) = true <-> hintCalls sys <> []).

(** The event is not a scene call that rejects. *)
Definition notRejected (e : Event) : bool :=
  match e with
  | SceneSettled _ (Throw _) => false
  | _ => true
  end.

(** Outside the phase [Start] a scene is shown or the spinner is. *)
Definition notBlank (s : State) : Prop :=
  gameState s <> Start -> currentScene s <> None \/ isLoading s = true.

End Invariants.

(** ** Sample inputs *)

Module Sample.

Import Service App.

(** A model whose call rejects, one that replies with the text [t], one whose
    reply has no text. *)
Definition rejecting (_ : GenerateContentParameters)
  : result GenerateContentResponse :=
  Throw (ApiError "503 Service Unavailable").

Definition replying (t : string) (_ : GenerateContentParameters)
  : result GenerateContentResponse :=
  Ok {| text := Some t |}.

Definition silent (_ : GenerateContentParameters)
  : result GenerateContentResponse :=
  Ok {| text := None |}.

(** [trim] on a text that has no white space at its ends. *)
Definition noTrim (s : string) : string := s.

(** [{ scene: 42, choices: "none", isEnding: null }]. *)
Definition illTyped : value :=
  VObject [ ("scene", VNumber 42%float);
            ("choices", VString "none");
            ("isEnding", VNull) ].

(** [{ scene: "", choices: ["a", "b"], isEnding: false }]. *)
Definition emptyNarrative : value :=
  VObject [ ("scene", VString EmptyString);
            ("choices", VArray [VString "a"; VString "b"]);
            ("isEnding", VBool false) ].

(** The JSON texts of the two values. *)
Definition quoted (s : string) : string := dquote ++ s ++ dquote.

Definition illTypedText : string :=
  "{" ++ quoted "scene" ++ ":42," ++ quoted "choices" ++ ":" ++ quoted "none"
  ++ "," ++ quoted "isEnding" ++ ":null}".

Definition emptyNarrativeText : string :=
  "{" ++ quoted "scene" ++ ":" ++ quoted EmptyString ++ ","
  ++ quoted "choices" ++ ":[" ++ quoted "a" ++ "," ++ quoted "b" ++ "],"
  ++ quoted "isEnding" ++ ":false}".

(** [JSON.parse] on the two texts above; a [SyntaxError] stands for its result
    on every other text. *)
Definition parseSample (t : string) : result value :=
  if t =? illTypedText then Ok illTyped
  else if t =? emptyNarrativeText then Ok emptyNarrative
  else Throw SyntaxError.

(** [{ scene: "X", choices: ["A", "B", "C"], isEnding: false }]. *)
Definition sceneX : StoryScene := mkStoryScene "X" ["A"; "B"; "C"] false None.

(** [{ scene: "Y", choices: ["Z"], isEnding: true }]. *)
Definition sceneY : StoryScene := mkStoryScene "Y" ["Z"] true None.

Definition twoTurns : History := [Turn.make "X" "A"; Turn.make "W" "B"].

(** [Playing] on [sceneX], nothing in flight. *)
Definition playingX : State :=
  mkState Playing (Some sceneX) [] false None false false.

(** After [handleStartGame] on the initial state: the first scene call is in
    flight. *)
Definition loadingFirst : System :=
  mkSystem (mkState Start None [] true None false false) [[]] [].

(** [End] on the fallback scene, nothing in flight. *)
Definition endedOnFallback : State :=
  mkState End (Some fallbackStoryScene) [] false None false false.

(** The game is started and the service falls back. *)
Definition fallbackRun : list Event :=
  [StartGame; SceneSettled 0 (Ok fallbackStoryScene)].

(** The start button is pressed twice before the first scene arrives, then
    the first call resolves with scene X. *)
Definition overlappingRun : list Event :=
  [StartGame; StartGame; SceneSettled 0 (Ok sceneX)].

(** [Playing] on scene X while the second call is still in flight. *)
Definition afterOverlap : System := mkSystem playingX [[]] [].

(** The hint call fails and settles with the no-hint message, then the hint
    is asked for twice more. *)
Definition hintRun : list Event :=
  [HintSettled 0 (Ok noHintAvailable); GetHint; GetHint].

(** While the first scene loads, a choice and a hint are asked for. *)
Definition impatientRun : list Event := [Choose "A"; GetHint].

End Sample.

Module Cases.

Import Service App Sample.

(** [trim] on a reply of three spaces, and on texts without white space at
    their ends. *)
Definition trimBlank (s : string) : string :=
  if s =? "   " then EmptyString else s.

(** The first scene call is in flight, the game is reset, and the call then
    resolves with scene X. *)
Definition resetWhileLoading : list Event :=
  [ResetGame; SceneSettled 0 (Ok sceneX)].

(** A case is played to its end, one of the choices of the ending scene is
    taken, and the story goes on with scene X. *)
Definition continuedAfterEnd : list Event :=
  [StartGame; SceneSettled 0 (Ok sceneY); Choose "Z"; SceneSettled 0 (Ok sceneX)].

(** The hint was asked for on scene X and its call is in flight. *)
Definition hintPending : System :=
  mkSystem (mkState Playing (Some sceneX) [] false None true true)
           [] [([], sceneX)].

(** The hint of scene X is awaited and the choice A was taken. *)
Definition choiceWhileHintPending : System :=
  mkSystem (mkState Playing None [Turn.make "X" "A"] true None true false)
           [[Turn.make "X" "A"]] [([], sceneX)].

(** The empty hint then arrived. *)
Definition blankHintStored : System :=
  mkSystem (mkState Playing None [Turn.make "X" "A"] true (Some EmptyString)
                    false false)
           [[Turn.make "X" "A"]] [].

(** [{ scene: "W", choices: ["C", "D"], isEnding: false }]. *)
Definition sceneW : StoryScene := mkStoryScene "W" ["C"; "D"] false None.

(** A hint is asked for on scene X, the choice A is taken before the hint
    arrives, the hint arrives while the next scene loads, and the next scene
    W is set. *)
Definition lateHintRun : list Event :=
  [StartGame; SceneSettled 0 (Ok sceneX); GetHint; Choose "A";
   HintSettled 0 (Ok "H"); SceneSettled 0 (Ok sceneW)].

(** The start button is pressed twice, the first call resolves with scene X,
    a hint is asked for, and the second call resolves with scene W. *)
Definition staleFlagRun : list Event :=
  [StartGame; StartGame; SceneSettled 0 (Ok sceneX); GetHint;
   SceneSettled 0 (Ok sceneW)].

End Cases.

(** ** Strings and arrays *)

Section Strings.

Lemma append_assoc (a b c : string) : (a ++ b) ++ c = a ++ b ++ c.
Proof.
  induction a as [| ch a IH]; simpl; [reflexivity | now rewrite IH].
Qed.

Lemma append_empty_r (a : string) : a ++ EmptyString = a.
Proof.
  induction a as [| ch a IH]; simpl; [reflexivity | now rewrite IH].
Qed.

Lemma occurs_in_context (needle hay pre post : string) :
  occurs_in needle hay -> occurs_in needle (pre ++ hay ++ post).
Proof.
  intros (a & b & ->).
  exists (pre ++ a), (b ++ post).
  now rewrite !append_assoc.
Qed.

Lemma occurs_before_context (x y hay pre post : string) :
  occurs_before x y hay -> occurs_before x y (pre ++ hay ++ post).
Proof.
  intros (a & b & c & ->).
  exists (pre ++ a), b, (c ++ post).
  now rewrite !append_assoc.
Qed.

Lemma join_cons (sep x y : string) (rest : list string) :
  join sep (x :: y :: rest) = x ++ sep ++ join sep (y :: rest).
Proof. reflexivity. Qed.

(** An element of an array occurs in the joined string. *)
Lemma join_occurs (sep : string) (xs : list string) (y : string)
      (ys : list string) :
  occurs_in y (join sep (xs ++ y :: ys)%list).
Proof.
  induction xs as [| x xs IH].
  - destruct ys as [| z ys].
    + exists EmptyString, EmptyString. simpl. now rewrite append_empty_r.
    + exists EmptyString, (sep ++ join sep (z :: ys)). reflexivity.
  - destruct IH as (a & b & E).
    exists (x ++ sep ++ a), b.
    replace ((x :: xs) ++ y :: ys)%list with (x :: (xs ++ y :: ys))%list
      by reflexivity.
    destruct (xs ++ y :: ys)%list as [| w ws] eqn:Eq.
    + now destruct xs.
    + rewrite join_cons, E. now rewrite !append_assoc.
Qed.

(** Two elements of an array occur in the joined string in their order. *)
Lemma join_occurs_before (sep : string) (xs : list string) (y : string)
      (ys : list string) (z : string) (zs : list string) :
  occurs_before y z (join sep (xs ++ y :: ys ++ z :: zs)%list).
Proof.
  induction xs as [| x xs IH].
  - destruct (join_occurs sep ys z zs) as (a & b & E).
    exists EmptyString, (sep ++ a), b.
    simpl app.
    destruct (ys ++ z :: zs)%list as [| w ws] eqn:Eq.
    + now destruct ys.
    + rewrite join_cons, E. simpl. now rewrite !append_assoc.
  - destruct IH as (a & b & c & E).
    exists (x ++ sep ++ a), b, c.
    replace ((x :: xs) ++ y :: ys ++ z :: zs)%list
      with (x :: (xs ++ y :: ys ++ z :: zs))%list by reflexivity.
    destruct (xs ++ y :: ys ++ z :: zs)%list as [| w ws] eqn:Eq.
    + now destruct xs.
    + rewrite join_cons, E. now rewrite !append_assoc.
Qed.

Lemma mapi_from_app {A B : Type} (f : A -> nat -> B) (xs ys : list A) (i : nat) :
  mapi_from i f (xs ++ ys)%list
  = (mapi_from i f xs ++ mapi_from (i + List.length xs) f ys)%list.
Proof.
  revert i. induction xs as [| x xs IH]; intros i; simpl.
  - now rewrite Nat.add_0_r.
  - rewrite IH. now rewrite Nat.add_succ_r.
Qed.

Lemma mapi_split {A B : Type} (f : A -> nat -> B) (xs : list A) (y : A)
      (ys : list A) :
  mapi f (xs ++ y :: ys)%list
  = (mapi f xs ++ f y (List.length xs)
       :: mapi_from (S (List.length xs)) f ys)%list.
Proof.
  unfold mapi. rewrite mapi_from_app. reflexivity.
Qed.

End Strings.

(** ** The prompt formatter *)

Section Prompt.

Import Service.

Lemma scenePrompt_nonempty (t : Turn.t) (h : History) :
  scenePrompt (t :: h)
  = continuationHead ++ join (nl ++ nl) (mapi formatTurn (t :: h))
    ++ continuationTail.
Proof. reflexivity. Qed.

Lemma scenePrompt_middle (h1 : History) (t : Turn.t) (h2 : History) :
  scenePrompt (h1 ++ t :: h2)%list
  = continuationHead
    ++ join (nl ++ nl) (mapi formatTurn (h1 ++ t :: h2)%list)
    ++ continuationTail.
Proof.
  destruct h1; apply scenePrompt_nonempty.
Qed.

Lemma continuation_is_not_opening (h : History) :
  continuationPrompt h <> openingPrompt.
Proof.
  intros E.
  assert (G : String.get 54 (continuationPrompt h) = String.get 54 openingPrompt)
    by now rewrite E.
  unfold continuationPrompt in G.
  rewrite <- (append_correct1 continuationHead _ 54) in G
    by (vm_compute; lia).
  vm_compute in G. discriminate G.
Qed.

(** C6.  The prompt is a function of the history alone.  For the empty
    history it is the opening prompt, which asks for 3 choices and forbids
    ending the story.  For a history with at least one turn it is the
    continuation prompt around the turns joined by a blank line, never the
    opening prompt; each turn is written as its scene label with its 1-based
    position and its narrative, a line break, and the decision label with the
    choice; every turn occurs in the prompt, and two turns occur in the order
    they have in the history. *)
Theorem scenePrompt_embeds_history :
  scenePrompt [] = openingPrompt
  /\ occurs_in "قدم 3 خيارات مختلفة" openingPrompt
  /\ occurs_in "لا تنهِ القصة في هذه المرحلة." openingPrompt
  /\ (forall (t : Turn.t) (h : History),
        scenePrompt (t :: h)
        = continuationHead ++ join (nl ++ nl) (mapi formatTurn (t :: h))
          ++ continuationTail
        /\ scenePrompt (t :: h) <> openingPrompt)
  /\ (forall (t : Turn.t) (i : nat),
        formatTurn t i
        = "المشهد " ++ string_of_nat (i + 1) ++ ": " ++ Turn.scene t ++ nl
          ++ "القرار المتخذ: " ++ Turn.choice t)
  /\ (forall (h1 : History) (t : Turn.t) (h2 : History),
        occurs_in (formatTurn t (List.length h1))
                  (scenePrompt (h1 ++ t :: h2)%list))
  /\ (forall (h1 : History) (ti : Turn.t) (h2 : History) (tj : Turn.t)
             (h3 : History),
        occurs_before
          (formatTurn ti (List.length h1))
          (formatTurn tj (List.length h1 + 1 + List.length h2))
          (scenePrompt (h1 ++ ti :: h2 ++ tj :: h3)%list)).
Proof.
  split; [reflexivity |].
  split.
  { exists (substring 0 286 openingPrompt), (substring 320 133 openingPrompt).
    vm_compute. reflexivity. }
  split.
  { exists (substring 0 401 openingPrompt), EmptyString.
    vm_compute. reflexivity. }
  split.
  { intros t h. split; [apply scenePrompt_nonempty |].
    exact (continuation_is_not_opening (t :: h)). }
  split; [reflexivity |].
  split.
  - intros h1 t h2.
    rewrite scenePrompt_middle. apply occurs_in_context.
    rewrite mapi_split.
    apply join_occurs.
  - intros h1 ti h2 tj h3.
    rewrite scenePrompt_middle. apply occurs_before_context.
    rewrite mapi_split.
    replace (mapi_from (S (List.length h1)) formatTurn (h2 ++ tj :: h3)%list)
      with (mapi_from (S (List.length h1)) formatTurn h2
            ++ formatTurn tj (List.length h1 + 1 + List.length h2)
               :: mapi_from (S (S (List.length h1) + List.length h2))
                            formatTurn h3)%list.
    + apply join_occurs_before.
    + rewrite mapi_from_app. simpl.
      replace (S (List.length h1 + List.length h2))
        with (List.length h1 + 1 + List.length h2) by lia.
      reflexivity.
Qed.

(** The formatter on the history [{X, A}; {W, B}]. *)
Example formatStoryHistory_twoTurns :
  formatStoryHistory Sample.twoTurns
  = "المشهد 1: X" ++ nl ++ "القرار المتخذ: A" ++ nl ++ nl
    ++ "المشهد 2: W" ++ nl ++ "القرار المتخذ: B".
Proof. reflexivity. Qed.

End Prompt.

(** ** The generation client *)

Section Client.

Import Service App.

Variable generateContent :
  GenerateContentParameters -> result GenerateContentResponse.
Variable JSON_parse : string -> result value.
Variable trim : string -> string.

#[local] Abbreviation generateStoryScene_try :=
  (Service.generateStoryScene_try generateContent JSON_parse trim).
#[local] Abbreviation generateStoryScene :=
  (Service.generateStoryScene generateContent JSON_parse trim).
#[local] Abbreviation generateHint_try :=
  (Service.generateHint_try generateContent trim).
#[local] Abbreviation generateHint := (Service.generateHint generateContent trim).
#[local] Abbreviation SceneFailure :=
  (Service.SceneFailure generateContent JSON_parse trim).
#[local] Abbreviation HintFailure := (Service.HintFailure generateContent).

(** The structure test, case by case. *)
Lemma checkStructure_cases (v : value) :
  checkStructure v
  = match v with
    | VUndefined | VNull => Throw TypeError
    | _ => if presentFields v then Ok v else Throw invalidStructure
    end.
Proof.
  destruct v as [| | b | x | s | items | props]; try reflexivity.
  unfold checkStructure, presentFields, fieldOf, getField, and_then.
  destruct (lookup "scene" props) as [a |]; simpl; [| reflexivity].
  destruct (truthy a) eqn:Ta; repeat (progress (simpl; rewrite ?Ta));
    [| reflexivity].
  destruct (lookup "choices" props) as [b |]; simpl; [| reflexivity].
  destruct (truthy b) eqn:Tb; repeat (progress (simpl; rewrite ?Tb));
    [| reflexivity].
  destruct (lookup "isEnding" props) as [c |]; simpl; [| reflexivity].
  destruct (typeof c =? "undefined"); reflexivity.
Qed.

Lemma checkStructure_accepts (v : value) :
  checkStructure v = Ok v <-> presentFields v = true.
Proof.
  rewrite checkStructure_cases.
  destruct v; simpl; try (split; discriminate);
    match goal with
    | |- context [presentFields ?w] => destruct (presentFields w)
    end; split; intros H; try reflexivity; discriminate H.
Qed.

Lemma checkStructure_rejects (v : value) :
  presentFields v = false -> exists e : error, checkStructure v = Throw e.
Proof.
  intros H. rewrite checkStructure_cases.
  destruct v; try rewrite H; eauto.
Qed.

(** A failure of the [try] block is one of the four kinds of [SceneFailure]. *)
Lemma sceneFailure_iff_throws (history : History) :
  SceneFailure history <-> threw (generateStoryScene_try history) = true.
Proof.
  unfold Service.generateStoryScene_try. split.
  - intros [e H | r H T | r t e H T P | r t v e H T P C]; rewrite H; simpl;
      try rewrite T; simpl; try rewrite P; simpl; try rewrite C; reflexivity.
  - destruct (generateContent (sceneRequest history)) as [r | e] eqn:H; simpl.
    + destruct (text r) as [t |] eqn:T; simpl.
      * destruct (JSON_parse (trim t)) as [v | e] eqn:P; simpl.
        -- destruct (checkStructure v) as [w | e] eqn:C; simpl.
           ++ discriminate.
           ++ intros _. exact (SceneStructureRejected _ _ _ _ _ _ _ _ H T P C).
        -- intros _. exact (SceneParseFailed _ _ _ _ _ _ _ H T P).
      * intros _. exact (SceneTextMissing _ _ _ _ _ H T).
    + intros _. exact (SceneCallRejected _ _ _ _ _ H).
Qed.

Lemma generateStoryScene_total (history : History) :
  threw (generateStoryScene history) = false.
Proof.
  unfold Service.generateStoryScene.
  destruct (generateStoryScene_try history); reflexivity.
Qed.

(** C1.  On a transport, parsing or validation failure of the generation call,
    for any history, [generateStoryScene] resolves with the fallback scene:
    its ending flag is true, its choices are the single start-over choice (so
    not empty), and its tone is negative.  On no input does the promise
    reject. *)
Theorem generateStoryScene_fallback_on_failure (history : History) :
  SceneFailure history ->
  generateStoryScene history = Ok fallbackScene
  /\ asStoryScene fallbackScene = Some fallbackStoryScene
  /\ isEnding fallbackStoryScene = true
  /\ choices fallbackStoryScene = [startOver]
  /\ choices fallbackStoryScene <> []
  /\ sceneType fallbackStoryScene = Some negative
  /\ (forall h : History, threw (generateStoryScene h) = false).
Proof.
  intros F. apply sceneFailure_iff_throws in F.
  repeat split; try reflexivity.
  - unfold Service.generateStoryScene.
    destruct (generateStoryScene_try history); [discriminate F | reflexivity].
  - discriminate.
  - apply generateStoryScene_total.
Qed.

(** C5, as the code has it.  When the reply parses to [v], the structure test
    accepts [v] exactly when [v.scene] is truthy, [v.choices] is truthy and
    [v.isEnding] is not [undefined]; no type is tested.  An accepted [v] is
    returned as it is; otherwise the test throws and the fallback scene is
    returned.  Among the values with the three fields present and of the
    declared types, the accepted ones are those whose narrative is not the
    empty string. *)
Theorem checkStructure_tests_presence
        (history : History) (response : GenerateContentResponse)
        (t : string) (v : value) :
  generateContent (sceneRequest history) = Ok response ->
  text response = Some t ->
  JSON_parse (trim t) = Ok v ->
  (checkStructure v = Ok v <-> presentFields v = true)
  /\ (presentFields v = false -> exists e : error, checkStructure v = Throw e)
  /\ generateStoryScene history
     = Ok (if presentFields v then v else fallbackScene)
  /\ (spec_wellShaped v = true ->
      (presentFields v = true <-> fieldOf v "scene" <> VString EmptyString)).
Proof.
  intros H T P.
  split; [apply checkStructure_accepts |].
  split; [apply checkStructure_rejects |].
  split.
  - unfold Service.generateStoryScene, Service.generateStoryScene_try.
    rewrite H. simpl. rewrite T. simpl. rewrite P. simpl.
    destruct (presentFields v) eqn:A.
    + apply checkStructure_accepts in A. now rewrite A.
    + destruct (checkStructure_rejects v A) as [e E]. now rewrite E.
  - unfold spec_wellShaped, presentFields.
    destruct (fieldOf v "scene") as [| | | | s | |]; try discriminate.
    destruct (fieldOf v "choices"); try discriminate.
    destruct (fieldOf v "isEnding"); try discriminate.
    intros _. simpl.
    destruct (String.eqb_spec s EmptyString) as [-> | N]; simpl.
    + split; [discriminate | intros G; now elim G].
    + split; [intros _ G; injection G as G; now elim N | reflexivity].
Qed.

Lemma generateHint_total (history : History) (currentScene : StoryScene) :
  threw (generateHint history currentScene) = false.
Proof.
  unfold Service.generateHint.
  destruct (generateHint_try history currentScene); reflexivity.
Qed.

Lemma hintFailure_iff_throws (history : History) (currentScene : StoryScene) :
  HintFailure history currentScene
  <-> threw (generateHint_try history currentScene) = true.
Proof.
  unfold Service.generateHint_try. split.
  - intros [e H | r H T]; rewrite H; simpl; try rewrite T; reflexivity.
  - destruct (generateContent (hintRequest history currentScene))
      as [r | e] eqn:H; simpl.
    + destruct (text r) as [t |] eqn:T; simpl.
      * discriminate.
      * intros _. exact (HintTextMissing _ _ _ _ H T).
    + intros _. exact (HintCallRejected _ _ _ _ H).
Qed.

(** C9.  When the hint call fails, [generateHint] resolves with the fixed
    no-hint message, and its promise rejects on no input.  Stored by the
    continuation of [handleGetHint], the message becomes the hint text, the
    hint is no longer loading, the rest of the state is as before and
    [handleChoice] answers as before.  Whatever way the hint call settles the
    continuation stores a text, and a hint still loading does not change what
    [handleChoice] does. *)
Theorem generateHint_failure_is_absorbed
        (history : History) (currentScene : StoryScene) (s : State) :
  HintFailure history currentScene ->
  generateHint history currentScene = Ok noHintAvailable
  /\ (forall (h : History) (c : StoryScene), threw (generateHint h c) = false)
  /\ (let s' := fst (handleGetHint_settle
                       (generateHint history currentScene) s) in
      hint s' = Some noHintAvailable
      /\ isHintLoading s' = false
      /\ gameState s' = gameState s
      /\ App.currentScene s' = App.currentScene s
      /\ storyHistory s' = storyHistory s
      /\ isLoading s' = isLoading s
      /\ isHintUsed s' = isHintUsed s
      /\ (forall c : string,
            snd (handleChoice c s') = snd (handleChoice c s)))
  /\ (forall (r : result string) (s0 : State),
        isHintLoading (fst (handleGetHint_settle r s0)) = false
        /\ exists t : string,
             hint (fst (handleGetHint_settle r s0)) = Some t)
  /\ (forall (c : string) (b : bool) (s0 : State),
        snd (handleChoice c (setIsHintLoading b s0))
        = snd (handleChoice c s0)).
Proof.
  intros F. apply hintFailure_iff_throws in F.
  assert (E : generateHint history currentScene = Ok noHintAvailable).
  { unfold Service.generateHint.
    destruct (generateHint_try history currentScene);
      [discriminate F | reflexivity]. }
  split; [exact E |].
  split; [intros h c; apply generateHint_total |].
  split.
  - rewrite E. simpl. repeat split.
    intros c. unfold handleChoice. simpl.
    destruct (App.currentScene s); [| reflexivity].
    destruct (isLoading s); reflexivity.
  - split.
    + intros r s0. destruct r; simpl; eauto.
    + intros c b s0. unfold handleChoice. simpl.
      destruct (App.currentScene s0); [| reflexivity].
      destruct (isLoading s0); reflexivity.
Qed.

End Client.

(** C1 at a model whose call rejects, on the empty history. *)
Lemma generateStoryScene_fallback_witness :
  Service.generateStoryScene Sample.rejecting Sample.parseSample Sample.noTrim []
  = Ok Service.fallbackScene
  /\ asStoryScene Service.fallbackScene = Some Service.fallbackStoryScene
  /\ isEnding Service.fallbackStoryScene = true
  /\ choices Service.fallbackStoryScene = [Service.startOver]
  /\ choices Service.fallbackStoryScene <> []
  /\ sceneType Service.fallbackStoryScene = Some negative
  /\ (forall h : History,
        threw (Service.generateStoryScene Sample.rejecting Sample.parseSample
                                          Sample.noTrim h) = false).
Proof.
  apply (generateStoryScene_fallback_on_failure
           Sample.rejecting Sample.parseSample Sample.noTrim []).
  apply Service.SceneCallRejected with (e := ApiError "503 Service Unavailable").
  reflexivity.
Defined.

(** The other kinds of failure: a reply without text, a text that is not
    JSON, a parsed value that fails the structure test. *)
Example generateStoryScene_no_text :
  Service.generateStoryScene Sample.silent Sample.parseSample Sample.noTrim
                             Sample.twoTurns
  = Ok Service.fallbackScene.
Proof. reflexivity. Qed.

Example generateStoryScene_not_json :
  Service.generateStoryScene (Sample.replying "Service unavailable")
                             Sample.parseSample Sample.noTrim Sample.twoTurns
  = Ok Service.fallbackScene.
Proof. reflexivity. Qed.

(** C5, refuted as the specification words it: a value with a number for the
    narrative, a string for the choices and [null] for the ending flag is
    accepted and returned as a scene, and a value with the three fields
    present and of the declared types, whose narrative is the empty string,
    is rejected and replaced by the fallback scene. *)
Lemma checkStructure_is_not_a_type_check :
  (Service.checkStructure Sample.illTyped = Ok Sample.illTyped
   /\ Service.spec_wellShaped Sample.illTyped = false
   /\ asStoryScene Sample.illTyped = None
   /\ Service.generateStoryScene (Sample.replying Sample.illTypedText)
        Sample.parseSample Sample.noTrim []
      = Ok Sample.illTyped)
  /\ (Service.spec_wellShaped Sample.emptyNarrative = true
      /\ asStoryScene Sample.emptyNarrative
         = Some (mkStoryScene EmptyString ["a"; "b"] false None)
      /\ Service.checkStructure Sample.emptyNarrative
         = Throw Service.invalidStructure
      /\ Service.generateStoryScene (Sample.replying Sample.emptyNarrativeText)
           Sample.parseSample Sample.noTrim []
         = Ok Service.fallbackScene)
  /\ ~ (forall v : value,
          Service.checkStructure v = Ok v <-> Service.spec_wellShaped v = true).
Proof.
  split; [repeat split |].
  split; [repeat split |].
  intros H.
  destruct (H Sample.illTyped) as [A _].
  discriminate (A eq_refl).
Qed.

(** C5 as the code has it, at a reply that parses to the value with the empty
    narrative. *)
Lemma checkStructure_tests_presence_witness :
  (Service.checkStructure Sample.emptyNarrative = Ok Sample.emptyNarrative
   <-> Service.presentFields Sample.emptyNarrative = true)
  /\ (Service.presentFields Sample.emptyNarrative = false ->
      exists e : error, Service.checkStructure Sample.emptyNarrative = Throw e)
  /\ Service.generateStoryScene (Sample.replying Sample.emptyNarrativeText)
       Sample.parseSample Sample.noTrim []
     = Ok (if Service.presentFields Sample.emptyNarrative
           then Sample.emptyNarrative else Service.fallbackScene)
  /\ (Service.spec_wellShaped Sample.emptyNarrative = true ->
      (Service.presentFields Sample.emptyNarrative = true
       <-> fieldOf Sample.emptyNarrative "scene" <> VString EmptyString)).
Proof.
  apply (checkStructure_tests_presence
           (Sample.replying Sample.emptyNarrativeText) Sample.parseSample
           Sample.noTrim []
           {| Service.text := Some Sample.emptyNarrativeText |}
           Sample.emptyNarrativeText);
    reflexivity.
Defined.

(** C9 at a model whose call rejects, in the state [Playing] on scene X. *)
Lemma generateHint_failure_witness :
  Service.generateHint Sample.rejecting Sample.noTrim [] Sample.sceneX
  = Ok Service.noHintAvailable
  /\ (forall (h : History) (c : StoryScene),
        threw (Service.generateHint Sample.rejecting Sample.noTrim h c) = false)
  /\ (let s' := fst (App.handleGetHint_settle
                       (Service.generateHint Sample.rejecting Sample.noTrim []
                                             Sample.sceneX)
                       Sample.playingX) in
      App.hint s' = Some Service.noHintAvailable
      /\ App.isHintLoading s' = false
      /\ App.gameState s' = App.gameState Sample.playingX
      /\ App.currentScene s' = App.currentScene Sample.playingX
      /\ App.storyHistory s' = App.storyHistory Sample.playingX
      /\ App.isLoading s' = App.isLoading Sample.playingX
      /\ App.isHintUsed s' = App.isHintUsed Sample.playingX
      /\ (forall c : string,
            snd (App.handleChoice c s')
            = snd (App.handleChoice c Sample.playingX)))
  /\ (forall (r : result string) (s0 : App.State),
        App.isHintLoading (fst (App.handleGetHint_settle r s0)) = false
        /\ exists t : string,
             App.hint (fst (App.handleGetHint_settle r s0)) = Some t)
  /\ (forall (c : string) (b : bool) (s0 : App.State),
        snd (App.handleChoice c (App.setIsHintLoading b s0))
        = snd (App.handleChoice c s0)).
Proof.
  apply (generateHint_failure_is_absorbed
           Sample.rejecting Sample.noTrim [] Sample.sceneX Sample.playingX).
  apply Service.HintCallRejected with (e := ApiError "503 Service Unavailable").
  reflexivity.
Defined.

(** ** The game state machine *)

(** Case analysis on what a handler reads. *)
Ltac by_cases s :=
  destruct s as [g cs h l hi hl hu]; simpl in *;
  try (destruct cs as [cur |]); try (destruct l); try (destruct hu);
  try (destruct hl); simpl in *.

Section Machine.

Import Service App.

Lemma step_app (e : Event) (sys sys' : System) :
  step e sys = Some sys' -> app sys' = fst (react e (app sys)).
Proof.
  unfold step. destruct (settle e sys) as [sys0 |]; [| discriminate].
  intros E. injection E as <-. reflexivity.
Qed.

(** A property of the component state that every event other than a scene
    resolution keeps holds after a run without scene resolution. *)
Lemma run_keeps (P : State -> Prop) :
  (forall (e : Event) (s : State),
      noSceneResolved [e] = true -> P s -> P (fst (react e s))) ->
  forall (events : list Event) (sys sys' : System),
    noSceneResolved events = true -> P (app sys) ->
    run events sys = Some sys' -> P (app sys').
Proof.
  intros K events. induction events as [| e events IH]; intros sys sys' N H R.
  - injection R as <-. exact H.
  - simpl in R. destruct (step e sys) as [sys1 |] eqn:S1; [| discriminate].
    apply (IH sys1 sys'); trivial.
    + destruct e as [| | c | | i [x | x] | i r]; simpl in N; trivial;
        discriminate.
    + rewrite (step_app _ _ _ S1). apply K; trivial.
      destruct e as [| | c | | i [x | x] | i r]; simpl in N; trivial;
        discriminate.
Qed.

(** *** The absent-scene guard *)



Lemma handleChoice_without_scene (choice : string) (s : State) :
  currentScene s = None -> handleChoice choice s = (s, []).
Proof. unfold handleChoice. now intros ->. Qed.

Lemma handleGetHint_without_scene (s : State) :
  currentScene s = None -> handleGetHint_begin s = (s, []).
Proof. unfold handleGetHint_begin. now intros ->. Qed.

(** C2.  When a scene call that is in flight resolves with a scene [S], the
    current scene becomes [S], the phase becomes [End] if [S] is flagged as
    ending and [Playing] otherwise, and the loading flag is cleared.
    [handleStartGame] leaves the phase as it is and calls the service with the
    empty history, so from [Start] a first scene flagged as ending takes the
    phase from [Start] to [End]. *)
Theorem scene_resolution_sets_scene_and_phase
        (sys : System) (i : nat) (S : StoryScene) (sys' : System) :
  step (SceneSettled i (Ok S)) sys = Some sys' ->
  currentScene (app sys') = Some S
  /\ gameState (app sys') = (if isEnding S then End else Playing)
  /\ isLoading (app sys') = false
  /\ (forall s0 : State,
        gameState (fst (handleStartGame s0)) = gameState s0
        /\ snd (handleStartGame s0)
           = [Play bgMusic; CallGenerateStoryScene []]
        /\ storyHistory (fst (handleStartGame s0)) = []
        /\ gameState (fst (fetchScene_settle (Ok S) (fst (handleStartGame s0))))
           = (if isEnding S then End else Playing)).
Proof.
  intros E. rewrite (step_app _ _ _ E). simpl.
  destruct (isEnding S) eqn:En; simpl; repeat split;
    rewrite ?En; reflexivity.
Qed.

(** *** One hint per scene *)

Lemma hintSpent_no_request (s : State) :
  hintSpent s -> handleGetHint_begin s = (s, []).
Proof.
  unfold handleGetHint_begin. intros [U | N].
  - rewrite U. now destruct (currentScene s).
  - now rewrite N.
Qed.

Lemma react_hintSpent (e : Event) (s : State) :
  noSceneResolved [e] = true -> hintSpent s -> hintSpent (fst (react e s)).
Proof.
  unfold hintSpent. intros N H.
  destruct e as [| | c | | i [x | x] | i [x | x]]; try discriminate N;
    by_cases s; destruct H as [H | H]; try discriminate H; auto.
Qed.

Lemma react_hint_request (e : Event) (s : State) :
  hintCallsOf (snd (react e s)) = []
  \/ (List.length (hintCallsOf (snd (react e s))) = 1
      /\ e = GetHint /\ hintSpent (fst (react e s))).
Proof.
  destruct e as [| | c | | i [x | x] | i [x | x]]; by_cases s;
    try (destruct (isEnding x)); simpl; auto.
  all: right; repeat split; left; reflexivity.
Qed.

Lemma hintCallsOf_app (xs ys : list Effect) :
  hintCallsOf (xs ++ ys)%list = (hintCallsOf xs ++ hintCallsOf ys)%list.
Proof.
  induction xs as [| [s | s | h | h c] xs IH]; simpl; trivial.
  now rewrite IH.
Qed.

Lemma noSceneResolved_cons (e : Event) (events : list Event) :
  noSceneResolved (e :: events) = true ->
  noSceneResolved [e] = true /\ noSceneResolved events = true.
Proof.
  destruct e as [| | c | | i [x | x] | i r]; simpl; auto. discriminate.
Qed.

(** From a state whose hint is spent, a run without scene resolution issues
    no hint call. *)
Lemma spent_run_issues_no_hint (events : list Event) (sys : System) :
  hintSpent (app sys) -> noSceneResolved events = true ->
  hintCallsOf (effects events sys) = [].
Proof.
  revert sys. induction events as [| e events IH]; intros sys H N;
    [reflexivity |].
  apply noSceneResolved_cons in N. destruct N as [N1 N2].
  simpl. destruct (step e sys) as [sys1 |] eqn:S1; [| reflexivity].
  rewrite hintCallsOf_app, (IH sys1); trivial.
  - rewrite app_nil_r.
    destruct e as [| | c | | i [x | x] | i [x | x]]; try discriminate N1;
      try (simpl; now rewrite (hintSpent_no_request _ H));
      generalize H; unfold hintSpent; by_cases (app sys);
        intros [H' | H']; try discriminate H'; reflexivity.
  - rewrite (step_app _ _ _ S1). now apply react_hintSpent.
Qed.

(** Between two scene resolutions at most one hint call is issued. *)
Lemma at_most_one_hint_call (events : list Event) (sys : System) :
  noSceneResolved events = true ->
  List.length (hintCallsOf (effects events sys)) <= 1.
Proof.
  revert sys. induction events as [| e events IH]; intros sys N; simpl;
    [lia |].
  apply noSceneResolved_cons in N. destruct N as [N1 N2].
  destruct (step e sys) as [sys1 |] eqn:S1; [| simpl; lia].
  rewrite hintCallsOf_app, length_app.
  destruct (react_hint_request e (app sys)) as [Z | (One & _ & Sp)].
  - rewrite Z. simpl. now apply IH.
  - rewrite One, spent_run_issues_no_hint; trivial.
    now rewrite (step_app _ _ _ S1).
Qed.

(** An event that issues a scene call leaves the hint text absent, the used
    flag cleared and no scene shown. *)
Lemma scene_request_resets (e : Event) (s : State) :
  sceneCallsOf (snd (react e s)) <> [] ->
  hint (fst (react e s)) = None
  /\ isHintUsed (fst (react e s)) = false
  /\ currentScene (fst (react e s)) = None.
Proof.
  destruct e as [| | c | | i [x | x] | i [x | x]]; by_cases s;
    try (destruct (isEnding x)); simpl; intros H; auto;
    now elim H.
Qed.

(** No hint can be requested between the issue of a scene call and the next
    scene resolution. *)
Lemma react_hintFresh (e : Event) (s : State) :
  noSceneResolved [e] = true -> hintFresh s -> hintFresh (fst (react e s)).
Proof.
  unfold hintFresh. intros N [U C].
  destruct e as [| | c | | i [x | x] | i [x | x]]; try discriminate N;
    by_cases s; try discriminate U; try discriminate C; auto.
Qed.

Lemma react_hintClear (e : Event) (s : State) :
  quiet e = true -> hintClear s -> hintClear (fst (react e s)).
Proof.
  unfold hintClear. intros Q (H & U & C).
  destruct e as [| | c | | i [x | x] | i r]; try discriminate Q;
    by_cases s; try discriminate U; try discriminate C; auto.
Qed.

Lemma run_keeps_quiet (P : State -> Prop) :
  (forall (e : Event) (s : State),
      quiet e = true -> P s -> P (fst (react e s))) ->
  forall (events : list Event) (sys sys' : System),
    forallb quiet events = true -> P (app sys) ->
    run events sys = Some sys' -> P (app sys').
Proof.
  intros K events. induction events as [| e events IH]; intros sys sys' Q H R.
  - injection R as <-. exact H.
  - simpl in Q. apply andb_true_iff in Q. destruct Q as [Q1 Q2].
    simpl in R. destruct (step e sys) as [sys1 |] eqn:S1; [| discriminate].
    apply (IH sys1 sys'); trivial.
    rewrite (step_app _ _ _ S1). now apply K.
Qed.

(** The hint guard (the part of C4 that holds on every run).  When
    [handleGetHint] issues its call, the used flag and the loading flag are
    already set in the state it leaves.  From there, in any run
    without a scene resolution (the hint call may stay pending, resolve or
    reject), no further hint call is issued and a further [handleGetHint]
    changes nothing and calls nothing.  In general at most one hint call is
    issued between two scene resolutions.  Every event that issues a scene
    call, and [fetchScene] on any history, clears the hint text and the used
    flag; the used flag is still cleared when the next scene is set, and so
    is the hint text when no hint call settled in between. *)
Theorem one_hint_request_per_scene
        (sys : System) (events : list Event) (sys' : System) :
  hintCallsOf (snd (handleGetHint_begin (app sys))) <> [] ->
  noSceneResolved events = true ->
  run events (after (handleGetHint_begin (app sys)) sys) = Some sys' ->
  isHintUsed (fst (handleGetHint_begin (app sys))) = true
  /\ isHintLoading (fst (handleGetHint_begin (app sys))) = true
  /\ handleGetHint_begin (app sys') = (app sys', [])
  /\ hintCallsOf (effects events (after (handleGetHint_begin (app sys)) sys))
     = []
  /\ (forall (evs : list Event) (sys0 : System),
        noSceneResolved evs = true ->
        List.length (hintCallsOf (effects evs sys0)) <= 1)
  /\ (forall (e : Event) (s : State),
        sceneCallsOf (snd (react e s)) <> [] ->
        hint (fst (react e s)) = None
        /\ isHintUsed (fst (react e s)) = false)
  /\ (forall (h : History) (s : State),
        hint (fst (fetchScene_begin h s)) = None
        /\ isHintUsed (fst (fetchScene_begin h s)) = false)
  /\ (forall (e : Event) (sys0 sys1 : System) (evs : list Event)
             (sys2 : System) (i : nat) (S : StoryScene) (sys3 : System),
        step e sys0 = Some sys1 ->
        sceneCallsOf (snd (react e (app sys0))) <> [] ->
        noSceneResolved evs = true ->
        run evs sys1 = Some sys2 ->
        step (SceneSettled i (Ok S)) sys2 = Some sys3 ->
        currentScene (app sys3) = Some S
        /\ isHintUsed (app sys3) = false
        /\ (forallb quiet evs = true -> hint (app sys3) = None)).
Proof.
  intros Req N R.
  assert (U : isHintUsed (fst (handleGetHint_begin (app sys))) = true
              /\ isHintLoading (fst (handleGetHint_begin (app sys))) = true).
  { revert Req. by_cases (app sys); intros Req; try (now elim Req);
      split; reflexivity. }
  assert (Sp : hintSpent (app (after (handleGetHint_begin (app sys)) sys))).
  { left. apply U. }
  split; [apply U |]. split; [apply U |].
  split.
  { apply hintSpent_no_request.
    apply (run_keeps hintSpent react_hintSpent events _ sys' N Sp R). }
  split; [now apply spent_run_issues_no_hint |].
  split; [intros evs sys0; apply at_most_one_hint_call |].
  split; [intros e s H; split; now apply scene_request_resets |].
  split; [intros h s; split; reflexivity |].
  intros e sys0 sys1 evs sys2 i S sys3 S1 Q N2 R2 S3.
  assert (F : hintFresh (app sys2)).
  { apply (run_keeps hintFresh react_hintFresh evs sys1 sys2 N2); trivial.
    rewrite (step_app _ _ _ S1).
    split; now apply scene_request_resets. }
  split; [| split].
  - rewrite (step_app _ _ _ S3). simpl. now destruct (isEnding S).
  - rewrite (step_app _ _ _ S3). destruct F as [F1 F2].
    simpl. now destruct (isEnding S).
  - intros Qt.
    assert (C : hintClear (app sys2)).
    { apply (run_keeps_quiet hintClear react_hintClear evs sys1 sys2 Qt);
        trivial.
      rewrite (step_app _ _ _ S1).
      repeat split; now apply scene_request_resets. }
    rewrite (step_app _ _ _ S3). destruct C as (C1 & _ & _).
    simpl. now destruct (isEnding S).
Qed.

End Machine.

(** ** History, reset and calls in flight *)

Section Flight.

Import Service App.

(** What an event other than a start or a reset does to the history. *)
Lemma react_history (e : Event) (st : State) :
  noRestart [e] = true ->
  storyHistory (fst (react e st)) = storyHistory st
  \/ exists (c : string) (cu : StoryScene),
       e = Choose c /\ currentScene st = Some cu /\ isLoading st = false
       /\ storyHistory (fst (react e st))
          = (storyHistory st ++ [Turn.make (scene cu) c])%list.
Proof.
  intros N.
  destruct e as [| | c | | i [x | x] | i [x | x]]; try discriminate N;
    by_cases st; try (destruct (isEnding x)); simpl; auto.
  all: right; exists c, cur; repeat split.
Qed.

Lemma noRestart_cons (e : Event) (events : list Event) :
  noRestart (e :: events) = true ->
  noRestart [e] = true /\ noRestart events = true.
Proof.
  destruct e; simpl; auto; discriminate.
Qed.

Lemma run_extends_history (events : list Event) (sys sys' : System) :
  noRestart events = true -> run events sys = Some sys' ->
  exists ext : History,
    storyHistory (app sys') = (storyHistory (app sys) ++ ext)%list
    /\ List.length ext <= List.length events.
Proof.
  revert sys. induction events as [| e events IH]; intros sys N R.
  - injection R as <-. exists []. now rewrite app_nil_r.
  - apply noRestart_cons in N. destruct N as [N1 N2].
    simpl in R. destruct (step e sys) as [sys1 |] eqn:S1; [| discriminate].
    destruct (IH sys1 N2 R) as (ext & E & Len).
    rewrite (step_app _ _ _ S1) in E.
    destruct (react_history e (app sys) N1) as [Same | (c & cu & _ & _ & _ & A)].
    + exists ext. rewrite E, Same. split; [reflexivity | simpl; lia].
    + exists (Turn.make (scene cu) c :: ext).
      rewrite E, A, <- app_assoc. split; [reflexivity | simpl; lia].
Qed.

(** C7.  A [handleChoice] that passes its guard appends exactly the turn made
    of the narrative of the scene shown and of the choice, at the end of the
    history, and calls the service with the history so extended.  Every event
    other than a start or a reset either leaves the history as it is or is
    such a choice; over a run without start or reset the earlier history
    stays a prefix, in place and in order, and grows by at most one turn per
    event. *)
Theorem history_is_append_only
        (s : State) (choice : string) (cur : StoryScene) :
  currentScene s = Some cur ->
  isLoading s = false ->
  storyHistory (fst (handleChoice choice s))
  = (storyHistory s ++ [Turn.make (scene cur) choice])%list
  /\ sceneCallsOf (snd (handleChoice choice s))
     = [(storyHistory s ++ [Turn.make (scene cur) choice])%list]
  /\ (forall (e : Event) (st : State),
        noRestart [e] = true ->
        storyHistory (fst (react e st)) = storyHistory st
        \/ exists (c : string) (cu : StoryScene),
             e = Choose c /\ currentScene st = Some cu
             /\ isLoading st = false
             /\ storyHistory (fst (react e st))
                = (storyHistory st ++ [Turn.make (scene cu) c])%list)
  /\ (forall (events : list Event) (sys sys' : System),
        noRestart events = true ->
        run events sys = Some sys' ->
        exists ext : History,
          storyHistory (app sys') = (storyHistory (app sys) ++ ext)%list
          /\ List.length ext <= List.length events).
Proof.
  intros C L.
  split; [| split; [| split]].
  - unfold handleChoice. rewrite C, L. reflexivity.
  - unfold handleChoice. rewrite C, L. reflexivity.
  - apply react_history.
  - apply run_extends_history.
Qed.

(** C8.  From any state, [handleResetGame] leaves the phase [Start], the
    history empty, no scene, no hint text and the used flag cleared.  It calls
    nothing, and the reset event can run whatever is in flight. *)
Theorem handleResetGame_clears (s : State) :
  gameState (fst (handleResetGame s)) = Start
  /\ storyHistory (fst (handleResetGame s)) = []
  /\ currentScene (fst (handleResetGame s)) = None
  /\ hint (fst (handleResetGame s)) = None
  /\ isHintUsed (fst (handleResetGame s)) = false
  /\ snd (handleResetGame s) = [PauseAndRewind bgMusic]
  /\ (forall (scenes : list History) (hints : list (History * StoryScene)),
        step ResetGame (mkSystem s scenes hints)
        = Some (mkSystem (fst (handleResetGame s)) scenes hints)).
Proof.
  repeat split.
  intros scenes hints. unfold step, after. simpl.
  now rewrite !app_nil_r.
Qed.

(** *** At most one scene call in flight *)

Lemma step_singleFlight (e : Event) (sys sys' : System) :
  singleFlight sys ->
  (e = StartGame -> sceneCalls sys = []) ->
  step e sys = Some sys' ->
  singleFlight sys'.
Proof.
  unfold singleFlight, step. intros [Len Abs] NoOv.
  destruct sys as [s scs hcs]. simpl in *.
  destruct e as [| | c | | i r | i r]; simpl.
  - intros E. injection E as <-. simpl.
    rewrite (NoOv eq_refl). simpl. split; [lia | reflexivity].
  - intros E. injection E as <-. simpl.
    rewrite app_nil_r. split; [exact Len | reflexivity].
  - intros E. injection E as <-. simpl.
    unfold handleChoice.
    destruct (currentScene s) as [cur |] eqn:C.
    + assert (Z : scs = []).
      { destruct scs; [reflexivity |].
        assert (D : Some cur = None) by (apply Abs; discriminate).
        discriminate D. }
      subst scs. destruct (isLoading s); simpl.
      * rewrite C. split; [lia | intros G; now elim G].
      * split; [lia | reflexivity].
    + simpl. rewrite app_nil_r, C. split; [exact Len | reflexivity].
  - intros E. injection E as <-. simpl.
    replace (sceneCallsOf (snd (handleGetHint_begin s))) with (@nil History).
    + rewrite app_nil_r. split; [exact Len |].
      intros G. specialize (Abs G).
      now rewrite (handleGetHint_without_scene s Abs).
    + unfold handleGetHint_begin. destruct (currentScene s); [| reflexivity].
      destruct (isHintUsed s || isHintLoading s); reflexivity.
  - destruct scs as [| h0 [| h1 rest]]; simpl in Len.
    + destruct i; discriminate.
    + destruct i as [| j]; simpl; [| destruct j; discriminate].
      intros E. injection E as <-. simpl.
      replace (sceneCallsOf (snd (fetchScene_settle r s))) with (@nil History).
      * simpl. split; [lia | intros G; now elim G].
      * destruct r as [x | x]; simpl; [destruct (isEnding x) |]; reflexivity.
    + lia.
  - destruct (nth_error hcs i); [| discriminate].
    intros E. injection E as <-. simpl.
    destruct r; simpl; rewrite app_nil_r; split; trivial.
Qed.

Lemma run_singleFlight (events : list Event) (sys sys' : System) :
  singleFlight sys ->
  noOverlappingStart events sys = true ->
  run events sys = Some sys' ->
  singleFlight sys'.
Proof.
  revert sys. induction events as [| e events IH]; intros sys H N R.
  - injection R as <-. exact H.
  - simpl in R. destruct (step e sys) as [sys1 |] eqn:S1; [| discriminate].
    apply (IH sys1); trivial.
    + apply (step_singleFlight e sys sys1); trivial.
      intros ->. simpl in N. destruct (sceneCalls sys); [reflexivity |].
      discriminate N.
    + simpl in N. rewrite S1 in N.
      destruct e; trivial.
      destruct (sceneCalls sys); [exact N | discriminate N].
Qed.

Lemma sceneAbsent_kept (e : Event) (s : State) :
  noSceneResolved [e] = true ->
  currentScene s = None -> currentScene (fst (react e s)) = None.
Proof.
  intros N C.
  destruct e as [| | c | | i [x | x] | i [x | x]]; try discriminate N;
    by_cases s; try discriminate C; reflexivity.
Qed.


(** The absent-scene guard (the part of C10 that holds on every run).  Once no
    scene is shown, none is shown until a scene call resolves with a scene:
    after any run without such a resolution the scene is still absent, and
    [handleChoice] and [handleGetHint] change nothing and call nothing,
    whatever the loading flag is set to.  Every event that issues a scene call leaves the scene
    absent.  In a run from the initial state that never starts a game while a
    scene call is in flight, at most one scene call is in flight, and while
    one is in flight no scene is shown and both handlers are idle. *)
Theorem scene_absent_until_resolution
        (sys : System) (events : list Event) (sys' : System) :
  currentScene (app sys) = None ->
  noSceneResolved events = true ->
  run events sys = Some sys' ->
  currentScene (app sys') = None
  /\ (forall (c : string) (b : bool),
        handleChoice c (setIsLoading b (app sys'))
        = (setIsLoading b (app sys'), []))
  /\ (forall b : bool,
        handleGetHint_begin (setIsLoading b (app sys'))
        = (setIsLoading b (app sys'), []))
  /\ (forall (e : Event) (s : State),
        sceneCallsOf (snd (react e s)) <> [] ->
        currentScene (fst (react e s)) = None)
  /\ (forall (evs : list Event) (sysR : System),
        noOverlappingStart evs boot = true ->
        run evs boot = Some sysR ->
        List.length (sceneCalls sysR) <= 1
        /\ (sceneCalls sysR <> [] ->
            currentScene (app sysR) = None
            /\ (forall c : string,
                  handleChoice c (app sysR) = (app sysR, []))
            /\ handleGetHint_begin (app sysR) = (app sysR, []))).
Proof.
  intros C N R.
  assert (A : currentScene (app sys') = None).
  { exact (run_keeps (fun s => currentScene s = None) sceneAbsent_kept
                     events sys sys' N C R). }
  split; [exact A |].
  split; [intros c b; now apply handleChoice_without_scene |].
  split; [intros b; now apply handleGetHint_without_scene |].
  split; [intros e s H; now apply scene_request_resets |].
  intros evs sysR NO RR.
  assert (SF : singleFlight sysR).
  { apply (run_singleFlight evs boot sysR); trivial.
    split; [simpl; lia | intros G; now elim G]. }
  destruct SF as [Len Abs]. split; [exact Len |].
  intros G. specialize (Abs G).
  split; [exact Abs |].
  split; [intros c; now apply handleChoice_without_scene |].
  now apply handleGetHint_without_scene.
Qed.

End Flight.

(** ** The properties at concrete runs *)

Section Runs.

Import Service App Sample.

(** The scenarios of the specification. *)
Example scenario_first_scene :
  run [StartGame; SceneSettled 0 (Ok sceneX)] boot
  = Some (mkSystem playingX [] []).
Proof. reflexivity. Qed.

Example scenario_ending_choice :
  run [Choose "A"; SceneSettled 0 (Ok sceneY)] (mkSystem playingX [] [])
  = Some (mkSystem (mkState End (Some sceneY) [Turn.make "X" "A"]
                            false None false false) [] []).
Proof. reflexivity. Qed.

(** The service call of a choice fails: the fallback scene is shown and the
    phase is [End]. *)
Example scenario_transport_error :
  match generateStoryScene rejecting parseSample noTrim [Turn.make "X" "A"] with
  | Ok v =>
      match asStoryScene v with
      | Some newScene =>
          run [Choose "A"; SceneSettled 0 (Ok newScene)]
              (mkSystem playingX [] [])
      | None => None
      end
  | Throw _ => None
  end
  = Some (mkSystem (mkState End (Some fallbackStoryScene) [Turn.make "X" "A"]
                            false None false false) [] []).
Proof. reflexivity. Qed.

Example scenario_hint_twice :
  effects [GetHint; GetHint] (mkSystem playingX [] [])
  = [Play hintSound; CallGenerateHint [] sceneX].
Proof. reflexivity. Qed.

(** A hint reply that arrives while the next scene loads is stored, and is
    the hint text when that scene is set; the used flag is clear. *)
Example scenario_late_hint_reply :
  play [GetHint; Choose "A"; HintSettled 0 (Ok "H"); SceneSettled 0 (Ok sceneY)]
       (mkSystem playingX [] [])
  = Some (mkSystem (mkState End (Some sceneY) [Turn.make "X" "A"]
                            false (Some "H") false false) [] []).
Proof. reflexivity. Qed.

(** C2 at the first scene call resolving with the ending scene Y. *)
Lemma scene_resolution_witness :
  currentScene (mkState End (Some sceneY) [] false None false false)
  = Some sceneY
  /\ gameState (mkState End (Some sceneY) [] false None false false)
     = (if isEnding sceneY then End else Playing)
  /\ isLoading (mkState End (Some sceneY) [] false None false false) = false
  /\ (forall s0 : State,
        gameState (fst (handleStartGame s0)) = gameState s0
        /\ snd (handleStartGame s0)
           = [Play bgMusic; CallGenerateStoryScene []]
        /\ storyHistory (fst (handleStartGame s0)) = []
        /\ gameState (fst (fetchScene_settle (Ok sceneY)
                                             (fst (handleStartGame s0))))
           = (if isEnding sceneY then End else Playing)).
Proof.
  apply (scene_resolution_sets_scene_and_phase
           loadingFirst 0 sceneY
           (mkSystem (mkState End (Some sceneY) [] false None false false)
                     [] [])).
  reflexivity.
Defined.



(** The hint guard at scene X: the hint is asked for, its call fails, and it
    is asked for twice more. *)
Lemma one_hint_request_witness :
  isHintUsed (fst (handleGetHint_begin playingX)) = true
  /\ isHintLoading (fst (handleGetHint_begin playingX)) = true
  /\ handleGetHint_begin
       (mkState Playing (Some sceneX) [] false (Some noHintAvailable)
                false true)
     = (mkState Playing (Some sceneX) [] false (Some noHintAvailable)
                false true, [])
  /\ hintCallsOf
       (effects hintRun
                (after (handleGetHint_begin playingX)
                       (mkSystem playingX [] []))) = []
  /\ (forall (evs : list Event) (sys0 : System),
        noSceneResolved evs = true ->
        List.length (hintCallsOf (effects evs sys0)) <= 1)
  /\ (forall (e : Event) (s : State),
        sceneCallsOf (snd (react e s)) <> [] ->
        hint (fst (react e s)) = None
        /\ isHintUsed (fst (react e s)) = false)
  /\ (forall (h : History) (s : State),
        hint (fst (fetchScene_begin h s)) = None
        /\ isHintUsed (fst (fetchScene_begin h s)) = false)
  /\ (forall (e : Event) (sys0 sys1 : System) (evs : list Event)
             (sys2 : System) (i : nat) (S : StoryScene) (sys3 : System),
        step e sys0 = Some sys1 ->
        sceneCallsOf (snd (react e (app sys0))) <> [] ->
        noSceneResolved evs = true ->
        run evs sys1 = Some sys2 ->
        step (SceneSettled i (Ok S)) sys2 = Some sys3 ->
        currentScene (app sys3) = Some S
        /\ isHintUsed (app sys3) = false
        /\ (forallb quiet evs = true -> hint (app sys3) = None)).
Proof.
  apply (one_hint_request_per_scene
           (mkSystem playingX [] []) hintRun
           (mkSystem (mkState Playing (Some sceneX) [] false
                              (Some noHintAvailable) false true) [] [])).
  - simpl. discriminate.
  - reflexivity.
  - reflexivity.
Defined.

(** C7 at the choice of A on scene X. *)
Lemma history_is_append_only_witness :
  storyHistory (fst (handleChoice "A" playingX))
  = (storyHistory playingX ++ [Turn.make (scene sceneX) "A"])%list
  /\ sceneCallsOf (snd (handleChoice "A" playingX))
     = [(storyHistory playingX ++ [Turn.make (scene sceneX) "A"])%list]
  /\ (forall (e : Event) (st : State),
        noRestart [e] = true ->
        storyHistory (fst (react e st)) = storyHistory st
        \/ exists (c : string) (cu : StoryScene),
             e = Choose c /\ currentScene st = Some cu
             /\ isLoading st = false
             /\ storyHistory (fst (react e st))
                = (storyHistory st ++ [Turn.make (scene cu) c])%list)
  /\ (forall (events : list Event) (sys sys' : System),
        noRestart events = true ->
        run events sys = Some sys' ->
        exists ext : History,
          storyHistory (app sys') = (storyHistory (app sys) ++ ext)%list
          /\ List.length ext <= List.length events).
Proof.
  apply (history_is_append_only playingX "A" sceneX); reflexivity.
Defined.

(** C10 at the run that breaks it.  While a scene call is in flight the scene
    should be absent and [handleChoice] and [handleGetHint] idle.  The start
    button is pressed twice while the phase is still [Start]; when the first
    call resolves with scene X the second call is still in flight, scene X is
    shown with its controls enabled, and both [handleChoice] and
    [handleGetHint] change the state and call the service. *)
Lemma scene_shown_with_call_in_flight :
  play overlappingRun boot = Some afterOverlap
  /\ sceneCalls afterOverlap = [[]]
  /\ currentScene (app afterOverlap) = Some sceneX
  /\ offered (app afterOverlap) (Choose "A") = true
  /\ offered (app afterOverlap) GetHint = true
  /\ handleChoice "A" (app afterOverlap) <> (app afterOverlap, [])
  /\ sceneCallsOf (snd (handleChoice "A" (app afterOverlap)))
     = [[Turn.make "X" "A"]]
  /\ handleGetHint_begin (app afterOverlap) <> (app afterOverlap, [])
  /\ hintCallsOf (snd (handleGetHint_begin (app afterOverlap)))
     = [([], sceneX)].
Proof.
  repeat split; try discriminate.
Qed.

(** The absent-scene guard at a choice and a hint asked for while the first
    scene loads. *)
Lemma scene_absent_witness :
  currentScene (app loadingFirst) = None
  /\ (forall (c : string) (b : bool),
        handleChoice c (setIsLoading b (app loadingFirst))
        = (setIsLoading b (app loadingFirst), []))
  /\ (forall b : bool,
        handleGetHint_begin (setIsLoading b (app loadingFirst))
        = (setIsLoading b (app loadingFirst), []))
  /\ (forall (e : Event) (s : State),
        sceneCallsOf (snd (react e s)) <> [] ->
        currentScene (fst (react e s)) = None)
  /\ (forall (evs : list Event) (sysR : System),
        noOverlappingStart evs boot = true ->
        run evs boot = Some sysR ->
        List.length (sceneCalls sysR) <= 1
        /\ (sceneCalls sysR <> [] ->
            currentScene (app sysR) = None
            /\ (forall c : string,
                  handleChoice c (app sysR) = (app sysR, []))
            /\ handleGetHint_begin (app sysR) = (app sysR, []))).
Proof.
  apply (scene_absent_until_resolution loadingFirst impatientRun loadingFirst);
    reflexivity.
Defined.

End Runs.

(** ** More on the prompts *)

Section Transcript.

Import Service.

Lemma join_snoc (sep x : string) (xs : list string) (y : string) :
  join sep ((x :: xs) ++ [y])%list = join sep (x :: xs) ++ sep ++ y.
Proof.
  revert x. induction xs as [| z xs IH]; intros x; [reflexivity |].
  change (join sep ((x :: z :: xs) ++ [y])%list)
    with (x ++ sep ++ join sep ((z :: xs) ++ [y])%list).
  rewrite IH, join_cons. now rewrite !append_assoc.
Qed.

Lemma mapi_from_snoc {A B : Type} (f : A -> nat -> B) (xs : list A) (y : A)
      (i : nat) :
  mapi_from i f (xs ++ [y])%list
  = (mapi_from i f xs ++ [f y (i + List.length xs)])%list.
Proof. now rewrite mapi_from_app. Qed.

Lemma formatStoryHistory_cons (t0 : Turn.t) (h : History) :
  formatStoryHistory (t0 :: h)
  = join (nl ++ nl) (mapi formatTurn (t0 :: h)).
Proof. reflexivity. Qed.

(** X1.  The transcript grows by appending: for a history with at least one
    turn, the formatted history with one more turn is the formatted history,
    a blank line, and the new turn under the next number; the continuation
    prompt changes in that place only.  The placeholder of the empty history
    is no part of a longer transcript: a history of one turn formats to that
    turn alone. *)
Theorem formatStoryHistory_snoc (t0 : Turn.t) (h : History) (t : Turn.t) :
  formatStoryHistory ((t0 :: h) ++ [t])%list
  = formatStoryHistory (t0 :: h) ++ nl ++ nl
    ++ formatTurn t (List.length (t0 :: h))
  /\ continuationPrompt ((t0 :: h) ++ [t])%list
     = continuationHead
       ++ (formatStoryHistory (t0 :: h) ++ nl ++ nl
           ++ formatTurn t (List.length (t0 :: h)))
       ++ continuationTail
  /\ formatStoryHistory [t] = formatTurn t 0
  /\ formatStoryHistory [] = noHistoryYet.
Proof.
  assert (E : formatStoryHistory ((t0 :: h) ++ [t])%list
              = formatStoryHistory (t0 :: h) ++ nl ++ nl
                ++ formatTurn t (List.length (t0 :: h))).
  { change ((t0 :: h) ++ [t])%list with (t0 :: (h ++ [t]))%list.
    rewrite (formatStoryHistory_cons t0 (h ++ [t])%list).
    rewrite formatStoryHistory_cons. unfold mapi.
    change (t0 :: (h ++ [t]))%list with ((t0 :: h) ++ [t])%list.
    rewrite (mapi_from_snoc formatTurn (t0 :: h) t 0).
    simpl mapi_from. simpl plus.
    rewrite join_snoc. now rewrite !append_assoc. }
  split; [exact E |].
  split; [unfold continuationPrompt; now rewrite E |].
  split; reflexivity.
Qed.

Lemma bullets_occur (pre : list string) (ch : string) (post : list string) :
  occurs_in ("- " ++ ch) ("- " ++ join (nl ++ "- ") (pre ++ ch :: post)%list).
Proof.
  induction pre as [| p pre IH].
  - destruct post as [| q post].
    + exists EmptyString, EmptyString. simpl. now rewrite append_empty_r.
    + exists EmptyString, ((nl ++ "- ") ++ join (nl ++ "- ") (q :: post)).
      simpl app. rewrite join_cons. now rewrite !append_assoc.
  - destruct IH as (a & b & E).
    exists ("- " ++ p ++ nl ++ a), b.
    replace ((p :: pre) ++ ch :: post)%list
      with (p :: (pre ++ ch :: post))%list by reflexivity.
    destruct (pre ++ ch :: post)%list as [| w ws] eqn:Eq.
    + now destruct pre.
    + rewrite join_cons.
      replace ("- " ++ p ++ (nl ++ "- ") ++ join (nl ++ "- ") (w :: ws))
        with (("- " ++ p ++ nl) ++ "- " ++ join (nl ++ "- ") (w :: ws))
        by now rewrite !append_assoc.
      rewrite E. now rewrite !append_assoc.
Qed.

(** The hint prompt as its three variable parts between four fixed texts. *)
Lemma hintPrompt_parts (history : History) (c : StoryScene) :
  exists p1 p2 p3 p4 : string,
    hintPrompt history c
    = p1 ++ formatStoryHistory history ++ p2
      ++ (dquote ++ scene c ++ dquote) ++ p3
      ++ ("- " ++ join (nl ++ "- ") (choices c)) ++ p4.
Proof.
  unfold hintPrompt.
  match goal with
  | |- exists p1 p2 p3 p4,
         ?a1 ++ ?a2 ++ ?a3 ++ ?a4 ++ ?a5 ++ ?a6 ++ ?a7 ++ ?a8
         ++ formatStoryHistory history ++ ?b1 ++ ?b2 ++ ?b3 ++ ?b4 ++ ?b5 ++ ?b6
         ++ dquote ++ scene c ++ dquote
         ++ ?c1 ++ ?c2 ++ ?c3 ++ ?c4 ++ ?c5 ++ ?c6
         ++ "- " ++ join _ _ ++ ?d = _ =>
      exists (a1 ++ a2 ++ a3 ++ a4 ++ a5 ++ a6 ++ a7 ++ a8),
             (b1 ++ b2 ++ b3 ++ b4 ++ b5 ++ b6),
             (c1 ++ c2 ++ c3 ++ c4 ++ c5 ++ c6), d
  end.
  rewrite !append_assoc. reflexivity.
Qed.

(** X2.  The hint prompt holds the formatted history, after it the narrative
    of the current scene between double quotes, and after that every choice
    of the scene as a bullet of its own.  For the empty history it holds the
    no-history placeholder. *)
Theorem hintPrompt_embeds_scene
        (history : History) (narrative : string) (pre : list string)
        (ch : string) (post : list string) (ending : bool)
        (tone : option SceneType) :
  occurs_before (formatStoryHistory history)
                (dquote ++ narrative ++ dquote)
                (hintPrompt history
                   (mkStoryScene narrative (pre ++ ch :: post)%list ending tone))
  /\ occurs_before (dquote ++ narrative ++ dquote)
                   ("- " ++ ch)
                   (hintPrompt history
                      (mkStoryScene narrative (pre ++ ch :: post)%list ending
                                    tone))
  /\ occurs_in noHistoryYet
               (hintPrompt []
                  (mkStoryScene narrative (pre ++ ch :: post)%list ending tone)).
Proof.
  destruct (bullets_occur pre ch post) as (a & b & B).
  split; [| split].
  - destruct (hintPrompt_parts history
                (mkStoryScene narrative (pre ++ ch :: post)%list ending tone))
      as (p1 & p2 & p3 & p4 & E).
    cbn [scene choices] in E. rewrite E.
    exists p1, p2,
      (p3 ++ ("- " ++ join (nl ++ "- ") (pre ++ ch :: post)%list) ++ p4).
    reflexivity.
  - destruct (hintPrompt_parts history
                (mkStoryScene narrative (pre ++ ch :: post)%list ending tone))
      as (p1 & p2 & p3 & p4 & E).
    cbn [scene choices] in E. rewrite E, B.
    exists (p1 ++ formatStoryHistory history ++ p2), (p3 ++ a), (b ++ p4).
    now rewrite !append_assoc.
  - destruct (hintPrompt_parts []
                (mkStoryScene narrative (pre ++ ch :: post)%list ending tone))
      as (p1 & p2 & p3 & p4 & E).
    rewrite E.
    change (formatStoryHistory []) with noHistoryYet.
    exists p1. eexists. reflexivity.
Qed.

End Transcript.

(** ** More on the generation client *)

Section Replies.

Import Service App Screen.

Variable generateContent :
  GenerateContentParameters -> result GenerateContentResponse.
Variable JSON_parse : string -> result value.
Variable trim : string -> string.

Lemma checkStructure_ok (p v : value) :
  checkStructure p = Ok v ->
  v = p /\ presentFields p = true
  /\ exists props : list (string * value), p = VObject props.
Proof.
  rewrite checkStructure_cases.
  destruct p as [| | b | x | s | items | props]; try discriminate;
    try (intros H; discriminate H).
  destruct (presentFields (VObject props)); [| discriminate].
  intros H. injection H as <-. repeat split. now exists props.
Qed.

(** X3.  Whatever the model replies, [generateStoryScene] resolves with an
    object whose [scene] and [choices] are truthy and whose [isEnding] is not
    [undefined]: either the parsed reply, which is then a JSON object (never
    an array, a string, a number, a boolean or [null]), or the fallback.  The
    value is truthy, so [!currentScene] is false once it is the current
    scene. *)
Theorem generateStoryScene_resolves_with_object (history : History) :
  exists props : list (string * value),
    Service.generateStoryScene generateContent JSON_parse trim history
    = Ok (VObject props)
    /\ presentFields (VObject props) = true
    /\ truthy (fieldOf (VObject props) "scene") = true
    /\ truthy (fieldOf (VObject props) "choices") = true
    /\ fieldOf (VObject props) "isEnding" <> VUndefined
    /\ truthy (VObject props) = true
    /\ (VObject props = fallbackScene
        \/ exists (response : GenerateContentResponse) (t : string),
             generateContent (sceneRequest history) = Ok response
             /\ text response = Some t
             /\ JSON_parse (trim t) = Ok (VObject props)).
Proof.
  assert (F : forall props : list (string * value),
             presentFields (VObject props) = true ->
             truthy (fieldOf (VObject props) "scene") = true
             /\ truthy (fieldOf (VObject props) "choices") = true
             /\ fieldOf (VObject props) "isEnding" <> VUndefined).
  { intros props P. unfold presentFields in P.
    apply andb_true_iff in P. destruct P as [P P3].
    apply andb_true_iff in P. destruct P as [P1 P2].
    repeat split; trivial.
    intros U. rewrite U in P3. discriminate P3. }
  unfold Service.generateStoryScene, Service.generateStoryScene_try.
  destruct (generateContent (sceneRequest history)) as [r | e] eqn:G; simpl.
  - destruct (text r) as [t |] eqn:T; simpl.
    + destruct (JSON_parse (trim t)) as [p | e] eqn:P; simpl.
      * destruct (checkStructure p) as [v | e] eqn:C; simpl.
        -- destruct (checkStructure_ok p v C) as (-> & Pf & props & ->).
           exists props. destruct (F props Pf) as (F1 & F2 & F3).
           repeat split; trivial.
           right. exists r, t. repeat split; trivial.
        -- eexists. repeat split; try reflexivity; try discriminate.
           now left.
      * eexists. repeat split; try reflexivity; try discriminate. now left.
    + eexists. repeat split; try reflexivity; try discriminate. now left.
  - eexists. repeat split; try reflexivity; try discriminate. now left.
Qed.

Lemma hintSpent_disables_button (s : State) :
  hintSpent s -> offered s GetHint = false.
Proof.
  unfold hintSpent, offered, hasScene. intros [U | N].
  - rewrite U. simpl. now rewrite !andb_false_r.
  - rewrite N. now rewrite !andb_false_r.
Qed.

(** X4.  A reply of the hint call that has a text is never replaced: the hint
    is the trimmed text, even when that is the empty string.  Let the hint be
    requested from a state that passes the guard of [handleGetHint], and let
    its reply be stored by the continuation after any events among which no
    scene call resolves with a scene.  Then the stored hint is the trimmed
    text and the hint is not loading; a further [handleGetHint] does nothing
    and the hint button is not enabled; when the trimmed text is empty the
    hint box is not shown; and when no event came in between, the used flag
    is set. *)
Theorem generateHint_keeps_any_text
        (sys : System) (c : StoryScene) (response : GenerateContentResponse)
        (t : string) (events : list Event) (sys1 : System) (i : nat)
        (sys2 : System) :
  currentScene (app sys) = Some c ->
  isHintUsed (app sys) = false ->
  isHintLoading (app sys) = false ->
  generateContent (hintRequest (storyHistory (app sys)) c) = Ok response ->
  text response = Some t ->
  noSceneResolved events = true ->
  run events (after (handleGetHint_begin (app sys)) sys) = Some sys1 ->
  step (HintSettled i
          (Service.generateHint generateContent trim
                                (storyHistory (app sys)) c))
       sys1 = Some sys2 ->
  snd (handleGetHint_begin (app sys))
  = [Play hintSound; CallGenerateHint (storyHistory (app sys)) c]
  /\ Service.generateHint generateContent trim (storyHistory (app sys)) c
     = Ok (trim t)
  /\ hint (app sys2) = Some (trim t)
  /\ isHintLoading (app sys2) = false
  /\ handleGetHint_begin (app sys2) = (app sys2, [])
  /\ offered (app sys2) GetHint = false
  /\ (trim t = EmptyString -> hintShown (app sys2) = false)
  /\ (events = [] -> isHintUsed (app sys2) = true).
Proof.
  intros C U L G T N R S2.
  assert (E : Service.generateHint generateContent trim
                                   (storyHistory (app sys)) c
              = Ok (trim t)).
  { unfold Service.generateHint, Service.generateHint_try.
    rewrite G. simpl. rewrite T. reflexivity. }
  assert (B : handleGetHint_begin (app sys)
              = (setIsHintUsed true (setIsHintLoading true (app sys)),
                 [Play hintSound; CallGenerateHint (storyHistory (app sys)) c])).
  { unfold handleGetHint_begin. now rewrite C, U, L. }
  rewrite E in S2.
  assert (Sp1 : hintSpent (app sys1)).
  { apply (run_keeps hintSpent react_hintSpent events
                     (after (handleGetHint_begin (app sys)) sys) sys1 N);
      trivial.
    rewrite B. left. reflexivity. }
  assert (A2 : app sys2 = fst (handleGetHint_settle (Ok (trim t)) (app sys1)))
    by exact (step_app _ _ _ S2).
  assert (Sp2 : hintSpent (app sys2)).
  { rewrite A2.
    exact (react_hintSpent (HintSettled i (Ok (trim t))) (app sys1)
                           eq_refl Sp1). }
  split; [now rewrite B |]. split; [exact E |].
  split; [now rewrite A2 |]. split; [now rewrite A2 |].
  split; [now apply hintSpent_no_request |].
  split; [now apply hintSpent_disables_button |].
  split.
  - intros Z. rewrite A2. unfold hintShown. simpl. rewrite Z. simpl.
    now rewrite !andb_false_r.
  - intros ->. simpl in R. injection R as <-.
    rewrite A2, B. reflexivity.
Qed.

End Replies.

(** X4 at a reply of three spaces to a hint asked for on scene X, which
    arrives after the choice A was taken. *)
Lemma generateHint_keeps_any_text_witness :
  snd (App.handleGetHint_begin Sample.playingX)
  = [App.Play App.hintSound;
     App.CallGenerateHint (App.storyHistory Sample.playingX) Sample.sceneX]
  /\ Service.generateHint (Sample.replying "   ") Cases.trimBlank
       (App.storyHistory Sample.playingX) Sample.sceneX
     = Ok (Cases.trimBlank "   ")
  /\ App.hint (App.app Cases.blankHintStored) = Some (Cases.trimBlank "   ")
  /\ App.isHintLoading (App.app Cases.blankHintStored) = false
  /\ App.handleGetHint_begin (App.app Cases.blankHintStored)
     = (App.app Cases.blankHintStored, [])
  /\ App.offered (App.app Cases.blankHintStored) App.GetHint = false
  /\ (Cases.trimBlank "   " = EmptyString ->
      Screen.hintShown (App.app Cases.blankHintStored) = false)
  /\ ([App.Choose "A"] = [] ->
      App.isHintUsed (App.app Cases.blankHintStored) = true).
Proof.
  apply (generateHint_keeps_any_text
           (Sample.replying "   ") Cases.trimBlank
           (App.mkSystem Sample.playingX [] []) Sample.sceneX
           {| Service.text := Some "   " |} "   "
           [App.Choose "A"] Cases.choiceWhileHintPending 0
           Cases.blankHintStored);
    reflexivity.
Defined.

(** ** More on the game state machine *)

Section Reachable.

Import Service App Screen Audio Invariants.

Lemma reachable_ind (P : System -> Prop) :
  P boot ->
  (forall (e : Event) (sys sys' : System),
      reachable sys -> P sys -> step e sys = Some sys' -> P sys') ->
  forall sys : System, reachable sys -> P sys.
Proof.
  intros B K sys [events R]. revert sys R.
  induction events as [| e events IH] using rev_ind; intros sys R.
  - injection R as <-. exact B.
  - assert (X : exists mid, run events boot = Some mid /\ step e mid = Some sys).
    { clear IH. revert R. generalize boot.
      induction events as [| e0 events IH]; intros b R; simpl in *.
      - destruct (step e b) as [m |] eqn:S1; [| discriminate].
        injection R as <-. now exists b.
      - destruct (step e0 b) as [m |]; [| discriminate]. now apply IH. }
    destruct X as (mid & R1 & S1).
    apply (K e mid sys); trivial.
    + now exists events.
    + now apply IH.
Qed.

Lemma remove_nth_length {A : Type} (xs : list A) (i : nat) :
  nth_error xs i <> None ->
  List.length (remove_nth i xs) + 1 = List.length xs.
Proof.
  revert i. induction xs as [| x xs IH]; intros i H.
  - destruct i; now elim H.
  - destruct i as [| j]; simpl; [lia |].
    simpl in H. specialize (IH j H). lia.
Qed.

(** What [step] does to the three parts of the system. *)
Lemma step_parts (e : Event) (sys sys' : System) :
  step e sys = Some sys' ->
  app sys' = fst (react e (app sys))
  /\ sceneCalls sys'
     = (match e with
        | SceneSettled i _ => remove_nth i (sceneCalls sys)
        | _ => sceneCalls sys
        end ++ sceneCallsOf (snd (react e (app sys))))%list
  /\ hintCalls sys'
     = (match e with
        | HintSettled i _ => remove_nth i (hintCalls sys)
        | _ => hintCalls sys
        end ++ hintCallsOf (snd (react e (app sys))))%list
  /\ match e with
     | SceneSettled i _ => nth_error (sceneCalls sys) i <> None
     | HintSettled i _ => nth_error (hintCalls sys) i <> None
     | _ => True
     end.
Proof.
  unfold step, settle.
  destruct e as [| | c | | i r | i r]; simpl;
    try (intros E; injection E as <-; repeat split; reflexivity).
  - destruct (nth_error (sceneCalls sys) i); [| discriminate].
    intros E; injection E as <-. repeat split. discriminate.
  - destruct (nth_error (hintCalls sys) i); [| discriminate].
    intros E; injection E as <-. repeat split. discriminate.
Qed.

(** X5.  The phase changes only when the game is reset, to [Start], or when a
    scene call resolves with a scene, to [End] or [Playing] by its ending
    flag.  Starting a game, choosing, asking for a hint, a hint call settling
    and a scene call rejecting leave the phase as it is. *)
Theorem phase_changes_only_on_reset_or_scene (e : Event) (s : State) :
  gameState (fst (react e s)) <> gameState s ->
  (e = ResetGame /\ gameState (fst (react e s)) = Start)
  \/ (exists (i : nat) (S : StoryScene),
        e = SceneSettled i (Ok S)
        /\ gameState (fst (react e s)) = (if isEnding S then End else Playing)).
Proof.
  destruct e as [| | c | | i [x | x] | i [x | x]].
  - by_cases s; intros H; now elim H.
  - intros _. left. split; reflexivity.
  - by_cases s; intros H; now elim H.
  - by_cases s; intros H; now elim H.
  - intros _. right. exists i, x. split; [reflexivity |].
    simpl. now destruct (isEnding x).
  - by_cases s; intros H; now elim H.
  - by_cases s; intros H; now elim H.
  - by_cases s; intros H; now elim H.
Qed.

Lemma app_not_nil {A} (xs ys : list A) : ys <> [] -> (xs ++ ys)%list <> [].
Proof. intros H E. apply app_eq_nil in E. now destruct E. Qed.

Lemma app_not_nil_l {A} (xs ys : list A) : xs <> [] -> (xs ++ ys)%list <> [].
Proof. intros H E. apply app_eq_nil in E. now destruct E. Qed.

(** X6.  In every reachable state: in phase [Start] no scene is shown and the
    history is empty; and while the loading flag is set no scene is shown and
    at least one scene call is in flight, so the flag will be cleared. *)
Theorem reachable_scene_side (sys : System) :
  reachable sys -> sceneSide sys.
Proof.
  apply reachable_ind.
  - split; [split; reflexivity | discriminate].
  - intros e s0 s1 _ [A B] S1.
    destruct (step_parts e s0 s1 S1) as (Ea & Es & _ & _).
    unfold sceneSide. rewrite Ea, Es. clear Ea Es S1.
    destruct s0 as [s scs hcs]. simpl in *.
    destruct e as [| | c | | i [x | x] | i [x | x]]; by_cases s;
      try (destruct (isEnding x)); simpl;
      (split; [intros G; try discriminate G;
               try (destruct (A G) as [? ?]; discriminate); auto
              | intros G; try discriminate G; split; try reflexivity;
                try (apply app_not_nil; discriminate);
                try (rewrite app_nil_r; now apply B) ]).
    all: try (destruct (A eq_refl) as [? ?]; try discriminate).
    all: try (destruct (B eq_refl) as [? ?]; try discriminate).
Qed.

Lemma react_hint_flag (e : Event) (s : State) :
  match e with
  | GetHint | HintSettled _ _ => True
  | _ => isHintLoading (fst (react e s)) = isHintLoading s
         /\ hintCallsOf (snd (react e s)) = []
  end.
Proof.
  destruct e as [| | c | | i [x | x] | i r]; trivial; by_cases s;
    try (destruct (isEnding x)); split; reflexivity.
Qed.

(** X7.  In every reachable state at most one hint call is in flight, and the
    hint-loading flag is set exactly while one is. *)
Theorem single_hint_call_in_flight (sys : System) :
  reachable sys -> hintSide sys.
Proof.
  apply reachable_ind.
  - split; [simpl; lia |]. split; [discriminate | intros H; now elim H].
  - intros e s0 s1 _ [Len Iff] S1.
    destruct (step_parts e s0 s1 S1) as (Ea & _ & Eh & Pre).
    unfold hintSide. rewrite Ea, Eh. clear Ea Eh S1.
    pose proof (react_hint_flag e (app s0)) as RF.
    destruct e as [| | c | | i r | i r].
    + destruct RF as [F1 F2]. rewrite F1, F2, app_nil_r. now split.
    + destruct RF as [F1 F2]. rewrite F1, F2, app_nil_r. now split.
    + destruct RF as [F1 F2]. rewrite F1, F2, app_nil_r. now split.
    + (* GetHint *)
      simpl. unfold handleGetHint_begin.
      destruct (currentScene (app s0)) as [cur |];
        [| simpl; rewrite app_nil_r; split; [exact Len | exact Iff]].
      destruct (isHintUsed (app s0)); simpl;
        [rewrite app_nil_r; split; [exact Len | exact Iff] |].
      destruct (isHintLoading (app s0)) eqn:L; simpl;
        [rewrite app_nil_r; split; [exact Len | now rewrite L] |].
      destruct (hintCalls s0) as [| x xs].
      * simpl. split; [lia |]. split; [discriminate | reflexivity].
      * assert (D : false = true) by (apply Iff; discriminate). discriminate D.
    + destruct RF as [F1 F2]. rewrite F1, F2, app_nil_r. now split.
    + (* HintSettled *)
      destruct (hintCalls s0) as [| x [| y ys]]; simpl in Len.
      * destruct i; now elim Pre.
      * destruct i as [| j]; [| destruct j; now elim Pre].
        destruct r; simpl; (split; [lia |]);
          (split; [discriminate | intros H; now elim H]).
      * lia.
Qed.


Theorem loading_disables_controls (s : State) :
  isLoading s = true ->
  offered s ResetGame = false
  /\ (forall c : string, offered s (Choose c) = false)
  /\ offered s GetHint = false
  /\ offered s StartGame = isStart (gameState s)
  /\ (forall c : string, handleChoice c s = (s, [])).
Proof.
  intros L. unfold offered. rewrite L. simpl.
  rewrite !andb_false_r, orb_true_r. simpl. rewrite !andb_false_r.
  repeat split.
  intros c. unfold handleChoice. rewrite L. now destruct (currentScene s).
Qed.

(** X9.  An event issues at most one scene call and at most one hint call.  A
    scene call carries the history the component stores after the event; a
    hint call is issued by [handleGetHint] only and carries the history and
    the scene of the state it is asked in, which it leaves unchanged.  The
    continuations of the two calls issue no call. *)
Theorem calls_carry_stored_history (e : Event) (s : State) :
  (sceneCallsOf (snd (react e s)) = []
   \/ sceneCallsOf (snd (react e s)) = [storyHistory (fst (react e s))])
  /\ (hintCallsOf (snd (react e s)) = []
      \/ exists cur : StoryScene,
           e = GetHint /\ currentScene s = Some cur
           /\ hintCallsOf (snd (react e s)) = [(storyHistory s, cur)]
           /\ storyHistory (fst (react e s)) = storyHistory s)
  /\ (isClick e = false ->
      sceneCallsOf (snd (react e s)) = []
      /\ hintCallsOf (snd (react e s)) = []).
Proof.
  destruct e as [| | c | | i [x | x] | i [x | x]]; by_cases s;
    try (destruct (isEnding x)); simpl;
    (split; [auto | split; [auto | intros D; try discriminate D; auto]]).
  all: right; exists cur; repeat split.
Qed.


Lemma music_app (xs ys : list Effect) (m : bool) :
  music (xs ++ ys)%list m = music ys (music xs m).
Proof.
  revert m. induction xs as [| [[] | [] | h | h c] xs IH]; intros m; simpl;
    trivial.
Qed.

Lemma play_music_end (events : list Event) (sys sys' : System) (m : bool) :
  (gameState (app sys) = End -> m = false) ->
  play events sys = Some sys' ->
  gameState (app sys') = End -> music (effects events sys) m = false.
Proof.
  revert sys m. induction events as [| e events IH]; intros sys m I P G.
  - injection P as <-. simpl. now apply I.
  - simpl in P. destruct (offered (app sys) e) eqn:O; [| discriminate].
    simpl. destruct (step e sys) as [sys1 |] eqn:S1; [| discriminate].
    rewrite music_app. apply (IH sys1); trivial.
    rewrite (step_app _ _ _ S1). clear IH P G S1.
    destruct e as [| | c | | i [x | x] | i [x | x]];
      destruct sys as [s scs hcs]; simpl in *; by_cases s;
      try (destruct (isEnding x)); simpl; intros G;
      try discriminate G; try discriminate O;
      try (rewrite G in O; simpl in O; discriminate O); auto.
    all: now destruct (outcomeSound (sceneType x)).
Qed.

(** X11.  In a run through the controls of the screen, from the initial state
    with the music off, whenever the phase is [End] the background music is
    stopped.  A reset always stops it and a start always starts it. *)
Theorem music_stopped_at_end (events : list Event) (sys' : System) :
  play events boot = Some sys' ->
  gameState (app sys') = End ->
  music (effects events boot) false = false
  /\ (forall (s : State) (m : bool), music (snd (handleResetGame s)) m = false)
  /\ (forall (s : State) (m : bool), music (snd (handleStartGame s)) m = true).
Proof.
  intros P G. split; [| split; reflexivity].
  apply (play_music_end events boot sys' false); trivial.
Qed.


Lemma react_notBlank (e : Event) (s : State) :
  notRejected e = true -> notBlank s -> notBlank (fst (react e s)).
Proof.
  unfold notBlank. intros N B.
  destruct e as [| | c | | i [x | x] | i [x | x]]; try discriminate N;
    by_cases s; try (destruct (isEnding x)); simpl; intros G;
    try (now elim G); try (now right); try (left; discriminate);
    try (destruct (B G) as [H | H]; [now elim H | discriminate H]);
    auto.
Qed.

Lemma run_keeps_all (ok : Event -> bool) (P : State -> Prop) :
  (forall (e : Event) (s : State),
      ok e = true -> P s -> P (fst (react e s))) ->
  forall (events : list Event) (sys sys' : System),
    forallb ok events = true -> P (app sys) ->
    run events sys = Some sys' -> P (app sys').
Proof.
  intros K events. induction events as [| e events IH]; intros sys sys' Q H R.
  - injection R as <-. exact H.
  - simpl in Q. apply andb_true_iff in Q. destruct Q as [Q1 Q2].
    simpl in R. destruct (step e sys) as [sys1 |] eqn:S1; [| discriminate].
    apply (IH sys1 sys'); trivial.
    rewrite (step_app _ _ _ S1). now apply K.
Qed.

(** X12.  For scenes of the declared type [StoryScene] (the only ones an
    event of the transition system carries; a reply that passes the structure
    test without that shape is outside this statement), and when no scene
    call rejects: every reachable state is loading, or offers the start
    button, the new-case button or a choice, with one exception: in phase
    [Playing] on a scene without choices none of the three is offered. *)
Theorem always_a_move (events : list Event) (sys : System) :
  forallb notRejected events = true ->
  run events boot = Some sys ->
  (isLoading (app sys) = true
   \/ offered (app sys) StartGame = true
   \/ offered (app sys) ResetGame = true
   \/ (exists c : string, offered (app sys) (Choose c) = true)
   \/ (exists cur : StoryScene,
         currentScene (app sys) = Some cur /\ choices cur = []
         /\ gameState (app sys) = Playing
         /\ offered (app sys) StartGame = false
         /\ offered (app sys) ResetGame = false
         /\ forall c : string, offered (app sys) (Choose c) = false)).
Proof.
  intros N R.
  assert (B : notBlank (app sys)).
  { apply (run_keeps_all notRejected notBlank react_notBlank events boot sys);
      trivial.
    intros G. now elim G. }
  unfold notBlank in B. destruct sys as [s scs hcs]. simpl in *.
  destruct s as [g cs h l hi hl hu]. simpl in *.
  destruct l; [now left |]. right.
  destruct g.
  - left. reflexivity.
  - destruct cs as [cur |].
    + destruct cur as [n [| c cs'] en tn].
      * right. right. right. eexists. repeat split.
      * right. right. left. exists c. unfold offered, cardShown. simpl.
        now rewrite String.eqb_refl.
    + destruct B as [B | B]; [discriminate | now elim B | discriminate B].
  - destruct cs as [cur |].
    + right. left. reflexivity.
    + destruct B as [B | B]; [discriminate | now elim B | discriminate B].
Qed.

End Reachable.

(** ** The further properties at concrete runs *)

Section MoreRuns.

Import Service App Screen Audio Invariants Sample Cases.

(** C4 at the runs that break it.  The hint state (text, used flag) should be
    reset when a new scene is set.  In the first run a hint is asked for on
    scene X and a choice is taken before it arrives: the reply is stored
    while the next scene loads, and when scene W is set the hint of scene X
    is the hint text, shown in the hint box under scene W beside an enabled
    hint button.  In the second run the start button is pressed twice, a
    hint is asked for on scene X, and the second call then sets scene W: the
    used flag is still set and the hint button of scene W is disabled.  Both
    runs go through controls on the screen. *)
Lemma hint_state_kept_when_scene_is_set :
  (play lateHintRun boot
   = Some (mkSystem (mkState Playing (Some sceneW) [Turn.make "X" "A"]
                             false (Some "H") false false) [] [])
   /\ hintShown (mkState Playing (Some sceneW) [Turn.make "X" "A"]
                         false (Some "H") false false) = true
   /\ offered (mkState Playing (Some sceneW) [Turn.make "X" "A"]
                       false (Some "H") false false) GetHint = true)
  /\ (play staleFlagRun boot
      = Some (mkSystem (mkState Playing (Some sceneW) [] false None true true)
                       [] [([], sceneX)])
      /\ isHintUsed (mkState Playing (Some sceneW) [] false None true true)
         = true
      /\ offered (mkState Playing (Some sceneW) [] false None true true)
                 GetHint = false
      /\ handleGetHint_begin
           (mkState Playing (Some sceneW) [] false None true true)
         = (mkState Playing (Some sceneW) [] false None true true, [])).
Proof.
  repeat split.
Qed.

(** X5 at the first scene call resolving with the ending scene Y. *)
Lemma phase_changes_witness :
  (SceneSettled 0 (Ok sceneY) = ResetGame
   /\ gameState (fst (react (SceneSettled 0 (Ok sceneY)) (app loadingFirst)))
      = Start)
  \/ (exists (i : nat) (S : StoryScene),
        SceneSettled 0 (Ok sceneY) = SceneSettled i (Ok S)
        /\ gameState (fst (react (SceneSettled 0 (Ok sceneY))
                                 (app loadingFirst)))
           = (if isEnding S then End else Playing)).
Proof.
  apply (phase_changes_only_on_reset_or_scene
           (SceneSettled 0 (Ok sceneY)) (app loadingFirst)).
  simpl. discriminate.
Defined.

(** X6 at the state in which the first scene loads. *)
Lemma reachable_scene_side_witness : sceneSide loadingFirst.
Proof.
  apply (reachable_scene_side loadingFirst).
  exists [StartGame]. reflexivity.
Defined.

(** X7 at the state in which the hint of scene X is awaited. *)
Lemma single_hint_call_witness : hintSide hintPending.
Proof.
  apply (single_hint_call_in_flight hintPending).
  exists [StartGame; SceneSettled 0 (Ok sceneX); GetHint]. reflexivity.
Defined.



(** X11 at the game started and the service falling back. *)
Lemma music_stopped_witness :
  music (effects fallbackRun boot) false = false
  /\ (forall (s : State) (m : bool), music (snd (handleResetGame s)) m = false)
  /\ (forall (s : State) (m : bool), music (snd (handleStartGame s)) m = true).
Proof.
  apply (music_stopped_at_end fallbackRun (mkSystem endedOnFallback [] []));
    reflexivity.
Defined.

(** After an ending, a choice of the ending scene continues the story in phase
    [Playing] with the music still stopped. *)
Example music_stays_off_after_end :
  play continuedAfterEnd boot
  = Some (mkSystem (mkState Playing (Some sceneX) [Turn.make "Y" "Z"]
                            false None false false) [] [])
  /\ music (effects continuedAfterEnd boot) false = false.
Proof. split; reflexivity. Qed.

(** X12 at the state reached by the start button pressed twice. *)
Lemma always_a_move_witness :
  isLoading (app afterOverlap) = true
  \/ offered (app afterOverlap) StartGame = true
  \/ offered (app afterOverlap) ResetGame = true
  \/ (exists c : string, offered (app afterOverlap) (Choose c) = true)
  \/ (exists cur : StoryScene,
        currentScene (app afterOverlap) = Some cur /\ choices cur = []
        /\ gameState (app afterOverlap) = Playing
        /\ offered (app afterOverlap) StartGame = false
        /\ offered (app afterOverlap) ResetGame = false
        /\ forall c : string, offered (app afterOverlap) (Choose c) = false).
Proof.
  apply (always_a_move overlappingRun afterOverlap); reflexivity.
Defined.

End MoreRuns.
